(** * Segment difficulty engine of komqom (src/utils/segmentDifficulty.js)

    A shallow embedding of the difficulty scoring code and the proofs of
    its specification.

    Modelling decisions, all local to this file:
    - a JavaScript string is the list of its UTF-16 code units;
    - a JavaScript number is an exact rational ([Q]): rounding of doubles,
      the infinities and NaN of float arithmetic are outside the model.
      On the scoring path every divisor is non-zero
      ([valid_path_divisors]), so exact arithmetic never leaves [Q];
    - the integer results of [parseInt] keep their NaN ([jsint]); they are
      the code's doubles as long as they are safe integers (below 2^53 in
      absolute value): statements about parsed values that depend on this
      carry the hypothesis [exact_time];
    - statements that depend on the order of computed numbers are made on
      inputs of ordinary magnitude ([ordinary]), where the doubles of the
      code neither overflow nor underflow, and are non-strict where
      rounding can merge two results; [Binary64] transcribes the power
      formula on binary64 floats, to evaluate what the code itself
      returns;
    - [null] and [undefined] are kept apart ([nullable]);
    - a thrown exception is a [Throw] completion.

    After the engine come its callers and the other pure parts of the
    application: the ordering of the segment panel, the splitting of the
    map bounds, the polyline decoder, the segment store of the loader
    and the token exchange worker. *)

From Stdlib Require Import ZArith NArith QArith Qabs List Bool String Ascii Lia Lqa.
From Stdlib Require Import Sorting.Sorted Sorting.Permutation.
From Stdlib Require Floats.
Import ListNotations.

Local Open Scope Z_scope.

(* ================================================================== *)
(** ** JavaScript values used by the module *)
(* ================================================================== *)

Module JS.

(** A string is its sequence of UTF-16 code units. *)
Definition jsstring := list N.

(** Code units of an ASCII literal. *)
Definition js (s : string) : jsstring :=
  map N_of_ascii (list_ascii_of_string s).

(** [null], [undefined] or a value of the documented type. *)
Inductive nullable (A : Type) : Type :=
| Undefined : nullable A
| Null : nullable A
| Val (a : A) : nullable A.
Arguments Undefined {A}.
Arguments Null {A}.
Arguments Val {A} a.

(** Result of an integer parse: an integer or NaN. *)
Inductive jsint : Type :=
| NaN : jsint
| Int (z : Z) : jsint.

(** Completion of a call: a returned value or a thrown error. *)
Inductive error : Type := TypeError.

Inductive completion (A : Type) : Type :=
| Return (a : A) : completion A
| Throw (e : error) : completion A.
Arguments Return {A} a.
Arguments Throw {A} e.

Definition bind {A B} (c : completion A) (k : A -> completion B) : completion B :=
  match c with
  | Return a => k a
  | Throw e => Throw e
  end.

(** *** Characters *)

(** WhiteSpace and LineTerminator code units, as stripped by
    [String.prototype.trim] and skipped by [parseInt]. *)
Definition isWhiteSpace (c : N) : bool :=
  ((c =? 9) || (c =? 10) || (c =? 11) || (c =? 12) || (c =? 13)
   || (c =? 32) || (c =? 160) || (c =? 5760)
   || ((8192 <=? c) && (c <=? 8202))
   || (c =? 8232) || (c =? 8233) || (c =? 8239) || (c =? 8287)
   || (c =? 12288) || (c =? 65279))%N.

(** [\d] : the ASCII digits. *)
Definition isDigit (c : N) : bool := ((48 <=? c) && (c <=? 57))%N.

Definition colon : N := 58%N.
Definition minus_sign : N := 45%N.
Definition plus_sign : N := 43%N.
Definition letter_s : N := 115%N.

(** *** String operations *)

Fixpoint takeWhile (p : N -> bool) (s : jsstring) : jsstring :=
  match s with
  | [] => []
  | c :: rest => if p c then c :: takeWhile p rest else []
  end.

Fixpoint dropWhile (p : N -> bool) (s : jsstring) : jsstring :=
  match s with
  | [] => []
  | c :: rest => if p c then dropWhile p rest else s
  end.

Definition trimStart (s : jsstring) : jsstring := dropWhile isWhiteSpace s.
Definition trimEnd (s : jsstring) : jsstring := rev (dropWhile isWhiteSpace (rev s)).

(** [s.trim()] *)
Definition trim (s : jsstring) : jsstring := trimEnd (trimStart s).

(** [s.split(sep)] for a one-unit separator. *)
Fixpoint split (sep : N) (s : jsstring) : list jsstring :=
  match s with
  | [] => [[]]
  | c :: rest =>
      if (c =? sep)%N then [] :: split sep rest
      else match split sep rest with
           | p :: ps => (c :: p) :: ps
           | [] => [[c]]
           end
  end.

(** Value of a run of decimal digits. *)
Definition digitsValue (ds : jsstring) : Z :=
  fold_left (fun acc c => acc * 10 + (Z.of_N c - 48)) ds 0.

(** [parseInt(s, 10)]: leading white space skipped, an optional sign, the
    longest prefix of decimal digits; NaN when that prefix is empty.
    What follows the digits is ignored.  ([-0] is identified with [0].)
    The value is the integer the digits denote, without bound; the
    double the code gets is this integer as long as it is below 2^53 in
    absolute value, its rounding above, an infinity from about 309
    digits on. *)
Definition parseInt (s : jsstring) : jsint :=
  let str := trimStart s in
  let (sign, str) :=
    match str with
    | c :: rest =>
        if (c =? minus_sign)%N then (-1, rest)
        else if (c =? plus_sign)%N then (1, rest)
        else (1, str)
    | [] => (1, str)
    end in
  match takeWhile isDigit str with
  | [] => NaN
  | ds => Int (sign * digitsValue ds)
  end.

Definition isNaN (n : jsint) : bool :=
  match n with NaN => true | Int _ => false end.

(** Integer arithmetic with NaN propagation. *)
Definition imul (a b : jsint) : jsint :=
  match a, b with Int x, Int y => Int (x * y) | _, _ => NaN end.
Definition iadd (a b : jsint) : jsint :=
  match a, b with Int x, Int y => Int (x + y) | _, _ => NaN end.

(** [/^\d+s?$/.test(s)] *)
Definition test_digits_s (s : jsstring) : bool :=
  match takeWhile isDigit s with
  | [] => false
  | _ => match dropWhile isDigit s with
         | [] => true
         | [c] => (c =? letter_s)%N
         | _ => false
         end
  end.

Fixpoint jsstring_eqb (a b : jsstring) : bool :=
  match a, b with
  | [], [] => true
  | x :: a', y :: b' => (x =? y)%N && jsstring_eqb a' b'
  | _, _ => false
  end.

End JS.

Import JS.
Notation "x <- c ;; k" := (bind c (fun x => k))
  (at level 61, c at next level, right associativity).

(* ================================================================== *)
(** ** The module *)
(* ================================================================== *)

Module SegmentDifficulty.

Local Open Scope Q_scope.

(** *** Constants *)

Module PHYSICS.
Definition g : Q := 981 # 100.
Definition rho : Q := 12 # 10.
Definition bikeMass : Q := 8 # 1.
Definition Crr : Q := 4 # 1000.
Definition CdA : Q := 28 # 100.
Definition eta : Q := 98 # 100.
End PHYSICS.

Module CP_MODEL.
Definition Pmax : Q := 2180 # 100.
Definition CP : Q := 477 # 100.
Definition Wprime : Q := 280 # 1.
End CP_MODEL.

Definition APR : Q := CP_MODEL.Pmax - CP_MODEL.CP.
Definition W_APR : Q := CP_MODEL.Wprime * APR.

(** *** Difficulty classes *)

Record class_info : Type := mkClass {
  class : string;
  label : string;
  color : string
}.

Record level : Type := mkLevel {
  min : Q;
  level_info : class_info
}.

Definition DIFFICULTY_CLASSES : list level :=
  [ mkLevel (150 # 1) (mkClass "suspicious" "hmmmm" "#6b7280");
    mkLevel (130 # 1) (mkClass "extreme" "Extrem" "#7c3aed");
    mkLevel (110 # 1) (mkClass "very-hard" "Sehr schwer" "#dc2626");
    mkLevel (90 # 1) (mkClass "hard" "Schwer" "#ea580c");
    mkLevel (70 # 1) (mkClass "moderate" "Moderat" "#ca8a04");
    mkLevel (50 # 1) (mkClass "accessible" "Machbar" "#16a34a");
    mkLevel (0 # 1) (mkClass "easy" "Einfach" "#22c55e") ].

(** *** Helper functions *)

(** The placeholder the parser rejects: U+2014. *)
Definition em_dash : jsstring := [8212%N].

(** A KOM time as it can reach the parser: a string (the documented
    type) or a finite number. *)
Inductive timeval : Type :=
| TStr (s : jsstring)
| TNum (x : Q).

(** [!timeStr]: true for null, undefined, the empty string and 0. *)
Definition falsy_time (t : nullable timeval) : bool :=
  match t with
  | Undefined | Null => true
  | Val (TStr s) => match s with [] => true | _ => false end
  | Val (TNum x) => Qeq_bool x 0
  end.

(** [timeStr === s] for a string [s]. *)
Definition strict_eq_string (t : nullable timeval) (s : jsstring) : bool :=
  match t with
  | Val (TStr s') => jsstring_eqb s' s
  | _ => false
  end.

(** [timeStr.trim()]: numbers have no [trim] method, calling it throws.
    (Only reached with a value that is neither null nor undefined.) *)
Definition call_trim (t : nullable timeval) : completion jsstring :=
  match t with
  | Val (TStr s) => Return (trim s)
  | _ => Throw TypeError
  end.

(** [parts[i]] used as a number: a missing element is NaN. *)
Definition part (parts : list jsint) (i : nat) : jsint := nth i parts NaN.

(** [parseKomTime]; [None] is [null]. *)
Definition parseKomTime (timeStr : nullable timeval) : completion (option jsint) :=
  if falsy_time timeStr || strict_eq_string timeStr em_dash then Return None
  else
    clean <- call_trim timeStr ;;
    if test_digits_s clean then Return (Some (parseInt clean))
    else
      let parts := map parseInt (split colon clean) in
      if existsb isNaN parts then Return None
      else if Nat.eqb (List.length parts) 2 then
        Return (Some (iadd (imul (part parts 0) (Int 60)) (part parts 1)))
      else if Nat.eqb (List.length parts) 3 then
        Return (Some (iadd (iadd (imul (part parts 0) (Int 3600))
                                 (imul (part parts 1) (Int 60)))
                           (part parts 2)))
      else Return None.

(** [referencePower] *)
Definition referencePower (t : Q) : Q :=
  if Qle_bool t 0 then CP_MODEL.Pmax
  else CP_MODEL.CP + W_APR / (CP_MODEL.Wprime + APR * t).

Record power_result : Type := mkPower {
  P_total : Q;
  P_totalWkg : Q
}.

(** [calculateRequiredW] *)
Definition calculateRequiredW (distance elevation timeSeconds riderMass : Q)
  : power_result :=
  let v := distance / timeSeconds in
  let grade := elevation / distance in
  let totalMass := riderMass + PHYSICS.bikeMass in
  let P_gravity := totalMass * PHYSICS.g * v * grade in
  let P_rolling := totalMass * PHYSICS.g * v * PHYSICS.Crr in
  let P_aero := (5 # 10) * PHYSICS.rho * PHYSICS.CdA * v * v * v in
  let P_total := (P_gravity + P_rolling + P_aero) / PHYSICS.eta in
  let P_totalWkg := P_total / riderMass in
  mkPower P_total P_totalWkg.

(** The loop of [getDifficultyClass]: first level whose [min] is at most
    the score. *)
Fixpoint first_level (levels : list level) (score : Q) : option class_info :=
  match levels with
  | [] => None
  | l :: rest =>
      if Qle_bool (min l) score then Some (level_info l)
      else first_level rest score
  end.

Definition unknown_class : class_info := mkClass "unknown" "—" "#9ca3af".

(** [getDifficultyClass]; after the loop the last table entry is
    returned (its [min] field is dropped here). *)
Definition getDifficultyClass (score : Q) : class_info :=
  match first_level DIFFICULTY_CLASSES score with
  | Some c => c
  | None =>
      level_info (nth (List.length DIFFICULTY_CLASSES - 1) DIFFICULTY_CLASSES
                      (mkLevel 0 unknown_class))
  end.

(** *** Main export *)

Record result : Type := mkResult {
  komPower : option Q;
  komPowerWKg : option Q;
  difficultyScore : option Q;
  difficultyClass : class_info;
  isValid : bool
}.

Record options : Type := mkOptions {
  distance : nullable Q;
  elevation : nullable Q;
  komTime : nullable timeval;
  riderMass : nullable Q
}.

(** [!x] for a number field: true for null, undefined and 0. *)
Definition falsy (x : nullable Q) : bool :=
  match x with
  | Undefined | Null => true
  | Val q => Qeq_bool q 0
  end.

(** [x <= 0]: undefined converts to NaN (false), null to 0 (true). *)
Definition le0 (x : nullable Q) : bool :=
  match x with
  | Undefined => false
  | Null => true
  | Val q => Qle_bool q 0
  end.

(** [x == null] *)
Definition eq_null {A} (x : nullable A) : bool :=
  match x with
  | Undefined | Null => true
  | Val _ => false
  end.

(** A validated number field read as a number.  The arithmetic is only
    reached with [Val] ([validated_fields_are_numbers]). *)
Definition to_number (x : nullable Q) : Q :=
  match x with
  | Val q => q
  | Undefined | Null => 0
  end.

(** [!komSeconds]: true for null, NaN and 0. *)
Definition falsy_seconds (k : option jsint) : bool :=
  match k with
  | None => true
  | Some NaN => true
  | Some (Int z) => Z.eqb z 0
  end.

(** [komSeconds <= 0] *)
Definition le0_seconds (k : option jsint) : bool :=
  match k with
  | None => true
  | Some NaN => false
  | Some (Int z) => Z.leb z 0
  end.

(** The seconds as a number, once accepted. *)
Definition seconds_to_number (k : option jsint) : Q :=
  match k with
  | Some (Int z) => inject_Z z
  | _ => 0
  end.

Definition defaultResult : result :=
  mkResult None None None unknown_class false.

(** [calculateSegmentDifficulty]; the [console.log] of the first guard
    is not modelled. *)
Definition calculateSegmentDifficulty (o : options) : completion result :=
  let distance := distance o in
  let elevation := elevation o in
  let komTime := komTime o in
  let riderMass := riderMass o in
  if (falsy distance || le0 distance)
     || eq_null elevation
     || (falsy riderMass || le0 riderMass)
     || falsy_time komTime
  then Return defaultResult
  else if falsy distance || le0 distance then Return defaultResult
  else if eq_null elevation then Return defaultResult
  else if falsy riderMass || le0 riderMass then Return defaultResult
  else
    komSeconds <- parseKomTime komTime ;;
    if falsy_seconds komSeconds || le0_seconds komSeconds
    then Return defaultResult
    else
      let powerResult :=
        calculateRequiredW (to_number distance) (to_number elevation)
                           (seconds_to_number komSeconds) (to_number riderMass) in
      let komPower := P_total powerResult in
      let komPowerWKg := P_totalWkg powerResult in
      let refPower := referencePower (seconds_to_number komSeconds) in
      let difficultyScore := (komPowerWKg / refPower) * (100 # 1) in
      let difficultyClass := getDifficultyClass difficultyScore in
      Return (mkResult (Some komPower) (Some komPowerWKg)
                       (Some difficultyScore) difficultyClass true).

(** *** Segment records (Strava API format) *)

Module Xoms.
Record t : Type := mk { kom : nullable timeval }.
End Xoms.

Module Data.
Record t : Type := mk {
  distance : nullable Q;
  elev_difference : nullable Q
}.
End Data.

Module Details.
Record t : Type := mk {
  distance : nullable Q;
  total_elevation_gain : nullable Q;
  xoms : nullable Xoms.t
}.
End Details.

Record segment : Type := mkSegment {
  data : nullable Data.t;
  details : nullable Details.t
}.

(** [x?.f] *)
Definition chain {A B} (x : nullable A) (f : A -> nullable B) : nullable B :=
  match x with
  | Val a => f a
  | Undefined | Null => Undefined
  end.

(** [a || b] on number fields *)
Definition or_else (a b : nullable Q) : nullable Q :=
  if falsy a then b else a.

(** [a ?? b] *)
Definition coalesce {A} (a b : nullable A) : nullable A :=
  if eq_null a then b else a.

(** [getSegmentDifficulty] *)
Definition getSegmentDifficulty (seg : segment) (riderMass : nullable Q)
  : completion result :=
  let data := data seg in
  let details := details seg in
  let distance := or_else (chain details Details.distance) (chain data Data.distance) in
  let elevation :=
    coalesce (coalesce (chain data Data.elev_difference)
                       (chain details Details.total_elevation_gain))
             (Val 0) in
  let komTime := chain (chain details Details.xoms) Xoms.kom in
  calculateSegmentDifficulty (mkOptions distance elevation komTime riderMass).

End SegmentDifficulty.

Import SegmentDifficulty.
Local Open Scope Q_scope.

(* ================================================================== *)
(** ** Vocabulary of the specification *)
(* ================================================================== *)

(** The seconds the parser computes from a string, in closed form. *)
Definition parsed_seconds (s : jsstring) : option jsint :=
  match s with
  | [] => None
  | _ =>
      if jsstring_eqb s em_dash then None
      else
        let clean := trim s in
        if test_digits_s clean then Some (parseInt clean)
        else
          match map parseInt (split colon clean) with
          | [Int m; Int sec] => Some (Int (m * 60 + sec))
          | [Int h; Int m; Int sec] => Some (Int (h * 3600 + m * 60 + sec))
          | _ => None
          end
  end.

(** *** Range of exact arithmetic

    The code computes on doubles, the model on integers.  The two agree
    as long as every integer involved is a safe integer (at most
    2^53 - 1 in absolute value, [Number.isSafeInteger]): such an integer
    is a double, and a product or sum of doubles whose true value is a
    safe integer is computed without rounding. *)
Definition MAX_SAFE_INTEGER : Z := (2 ^ 53 - 1)%Z.

Definition isSafeInteger (n : Z) : bool := (Z.abs n <=? MAX_SAFE_INTEGER)%Z.

(** Every integer the parser computes from the trimmed string is safe:
    the parsed components, the products by 60 and 3600, and the sums, in
    the order the code forms them. *)
Definition exact_clean (clean : jsstring) : bool :=
  if test_digits_s clean then
    match parseInt clean with
    | Int n => isSafeInteger n
    | NaN => true
    end
  else
    match map parseInt (split colon clean) with
    | [Int m; Int sec] =>
        isSafeInteger m && isSafeInteger sec
        && isSafeInteger (m * 60) && isSafeInteger (m * 60 + sec)
    | [Int h; Int m; Int sec] =>
        isSafeInteger h && isSafeInteger m && isSafeInteger sec
        && isSafeInteger (h * 3600) && isSafeInteger (m * 60)
        && isSafeInteger (h * 3600 + m * 60)
        && isSafeInteger (h * 3600 + m * 60 + sec)
    | _ => true
    end.

(** A KOM time on which the parser stays within the safe integers. *)
Definition exact_time (k : nullable timeval) : bool :=
  match k with
  | Val (TStr s) => exact_clean (trim s)
  | _ => true
  end.

(** Inputs of ordinary magnitude: a distance between 1 m and 10^9 m, an
    elevation gain of at most 10^9 m up or down, a rider between 1 kg and
    10^9 kg.  With a duration between 1 s and 2^53 s, no double of the
    scoring path overflows or underflows on them. *)
Definition ordinary (d e m : Q) : Prop :=
  1 <= d /\ d <= 1000000000
  /\ - (1000000000) <= e /\ e <= 1000000000
  /\ 1 <= m /\ m <= 1000000000.

(** The result computed on the scoring path, from numbers. *)
Definition scored (d e t m : Q) : result :=
  let p := calculateRequiredW d e t m in
  let score := (P_totalWkg p / referencePower t) * (100 # 1) in
  mkResult (Some (P_total p)) (Some (P_totalWkg p)) (Some score)
           (getDifficultyClass score) true.

(** The first guard of the orchestrator. *)
Definition rejected_by_guard (o : options) : bool :=
  (falsy (distance o) || le0 (distance o))
  || eq_null (elevation o)
  || (falsy (riderMass o) || le0 (riderMass o))
  || falsy_time (komTime o).

(** A number field that is absent or not positive. *)
Definition absent_or_nonpositive (x : nullable Q) : Prop :=
  match x with
  | Undefined | Null => True
  | Val q => q <= 0
  end.

(** The time checks the specification lists: absent, empty, or parsed
    to a non-positive duration. *)
Definition time_fails_as_stated (k : nullable timeval) : Prop :=
  k = Undefined \/ k = Null \/ k = Val (TStr [])
  \/ exists z, parseKomTime k = Return (Some (Int z)) /\ (z <= 0)%Z.

(** The checks of the specification.  A time that does not parse counts
    with those parsed to a non-positive duration, as it does in the code,
    where [null <= 0] holds. *)
Definition fails_validation (o : options) : Prop :=
  absent_or_nonpositive (distance o)
  \/ eq_null (elevation o) = true
  \/ absent_or_nonpositive (riderMass o)
  \/ time_fails_as_stated (komTime o)
  \/ parseKomTime (komTime o) = Return None.

(** The KOM time has its documented type: a string, or it is absent. *)
Definition text_or_absent (k : nullable timeval) : Prop :=
  match k with
  | Val (TNum _) => False
  | _ => True
  end.

(** ... or it is the number 0, which the guard treats as absent. *)
Definition text_absent_or_zero (k : nullable timeval) : Prop :=
  match k with
  | Val (TNum x) => x == 0
  | _ => True
  end.

(** A field holds a value: it is neither null nor undefined. *)
Definition present {A} (x : nullable A) : Prop := exists a, x = Val a.

(** A number field is truthy: a number other than 0. *)
Definition truthy (x : nullable Q) : Prop := exists q, x = Val q /\ ~ q == 0.

(** distance 5000 m, elevation 300 m, KOM time "20:00", rider 75 kg *)
Definition example_options : options :=
  mkOptions (Val 5000) (Val 300) (Val (TStr (js "20:00"))) (Val 75).

(** distance 5000 m, elevation 300 m, KOM time "abc", rider 75 kg *)
Definition unparseable_options : options :=
  mkOptions (Val 5000) (Val 300) (Val (TStr (js "abc"))) (Val 75).

(** distance 5000 m, elevation 300 m, KOM time 1200 (a number), rider 75 kg *)
Definition numeric_time_options : options :=
  mkOptions (Val 5000) (Val 300) (Val (TNum 1200)) (Val 75).

(** A segment whose explore data and details carry no elevation:
    details.distance 5000 m, KOM "20:00". *)
Definition segment_without_elevation : segment :=
  mkSegment
    (Val (Data.mk (Val 4990) Undefined))
    (Val (Details.mk (Val 5000) Undefined
                     (Val (Xoms.mk (Val (TStr (js "20:00"))))))).

(* ================================================================== *)
(** ** Reference power curve *)
(* ================================================================== *)

Section ReferencePower.

Lemma APR_value : APR == 1703 # 100.
Proof. reflexivity. Qed.

Lemma W_APR_value : W_APR == 47684 # 10.
Proof. reflexivity. Qed.

Lemma Qle_bool_false_iff (x y : Q) : Qle_bool x y = false <-> y < x.
Proof.
  split; intro H.
  - apply Qnot_le_lt. intro Hle. apply Qle_bool_iff in Hle. congruence.
  - destruct (Qle_bool x y) eqn:E; [|reflexivity].
    apply Qle_bool_iff in E. exfalso. apply (Qlt_not_le _ _ H E).
Qed.

Lemma referencePower_nonpos (t : Q) : t <= 0 -> referencePower t = CP_MODEL.Pmax.
Proof.
  intro H. unfold referencePower.
  apply Qle_bool_iff in H. now rewrite H.
Qed.

Lemma referencePower_pos (t : Q) :
  0 < t ->
  referencePower t = CP_MODEL.CP + W_APR / (CP_MODEL.Wprime + APR * t).
Proof.
  intro H. unfold referencePower.
  apply Qle_bool_false_iff in H. now rewrite H.
Qed.

Lemma denominator_pos (t : Q) : 0 < t -> 0 < CP_MODEL.Wprime + APR * t.
Proof.
  intro H. rewrite APR_value. unfold CP_MODEL.Wprime. lra.
Qed.

Lemma referencePower_above_CP (t : Q) : 0 < t -> CP_MODEL.CP < referencePower t.
Proof.
  intro H. rewrite (referencePower_pos t H).
  assert (0 < W_APR / (CP_MODEL.Wprime + APR * t)).
  { apply Qlt_shift_div_l; [now apply denominator_pos|].
    rewrite W_APR_value. lra. }
  lra.
Qed.

Lemma referencePower_positive (t : Q) : 0 < referencePower t.
Proof.
  destruct (Qlt_le_dec 0 t) as [H|H].
  - pose proof (referencePower_above_CP t H). unfold CP_MODEL.CP in *. lra.
  - rewrite (referencePower_nonpos t H). reflexivity.
Qed.

Lemma referencePower_antitone (t1 t2 : Q) :
  0 < t1 -> t1 < t2 -> referencePower t2 <= referencePower t1.
Proof.
  intros H1 H12.
  assert (H2 : 0 < t2) by lra.
  rewrite (referencePower_pos t1 H1), (referencePower_pos t2 H2).
  apply Qplus_le_r. unfold Qdiv.
  apply Qmult_le_l; [rewrite W_APR_value; reflexivity|].
  apply Qlt_le_weak.
  apply -> Qinv_lt_contravar; try (now apply denominator_pos).
  rewrite APR_value. lra.
Qed.

Lemma referencePower_limit (eps : Q) :
  0 < eps ->
  exists T, forall t, T < t -> Qabs (referencePower t - CP_MODEL.CP) < eps.
Proof.
  intro Heps.
  assert (Hae : 0 < APR * eps) by (rewrite APR_value; nra).
  exists (W_APR / (APR * eps)). intros t HtT.
  assert (Ht0 : 0 < t).
  { apply Qlt_trans with (W_APR / (APR * eps)); [|exact HtT].
    apply Qlt_shift_div_l; [exact Hae|]. rewrite W_APR_value. lra. }
  pose proof (referencePower_above_CP t Ht0) as Habove.
  rewrite Qabs_pos by lra.
  rewrite (referencePower_pos t Ht0).
  setoid_replace (CP_MODEL.CP + W_APR / (CP_MODEL.Wprime + APR * t) - CP_MODEL.CP)
    with (W_APR / (CP_MODEL.Wprime + APR * t)) by ring.
  apply Qlt_shift_div_r; [now apply denominator_pos|].
  assert (Hw : W_APR < t * (APR * eps)).
  { assert (E : W_APR / (APR * eps) * (APR * eps) == W_APR) .
    { field. split; [lra|]. rewrite APR_value. discriminate. }
    rewrite <- E at 1. now apply Qmult_lt_compat_r. }
  unfold CP_MODEL.Wprime. nra.
Qed.

End ReferencePower.

(** C4: the reference power is non-increasing on positive durations, is
    [Pmax] = 21.80 for every non-positive duration, is
    4.77 + 4768.4 / (280 + 17.03 t) for positive [t], and tends to
    [CP] = 4.77 (within 0.003 of it at t = 100000). *)
Theorem referencePower_curve :
  (forall t1 t2 : Q, 0 < t1 -> t1 < t2 -> referencePower t2 <= referencePower t1)
  /\ (forall t : Q, t <= 0 -> referencePower t = CP_MODEL.Pmax)
  /\ CP_MODEL.Pmax == 2180 # 100
  /\ (forall t : Q, 0 < t ->
        referencePower t == (477 # 100) + (47684 # 10) / (280 + (1703 # 100) * t))
  /\ (forall eps : Q, 0 < eps ->
        exists T, forall t, T < t -> Qabs (referencePower t - (477 # 100)) < eps)
  /\ Qabs (referencePower 100000 - (477 # 100)) < 3 # 1000.
Proof.
  split; [exact referencePower_antitone|].
  split; [exact referencePower_nonpos|].
  split; [reflexivity|].
  split.
  { intros t Ht. rewrite (referencePower_pos t Ht).
    rewrite APR_value, W_APR_value. reflexivity. }
  split; [exact referencePower_limit|].
  vm_compute. reflexivity.
Qed.

(* ================================================================== *)
(** ** Classifier *)
(* ================================================================== *)

Lemma getDifficultyClass_in_table (score : Q) :
  In (getDifficultyClass score) (map level_info DIFFICULTY_CLASSES).
Proof.
  unfold getDifficultyClass, DIFFICULTY_CLASSES, first_level.
  repeat match goal with
         | |- context [Qle_bool ?a ?b] => destruct (Qle_bool a b)
         end;
    simpl; tauto.
Qed.

Ltac decide_bands :=
  repeat match goal with
         | H : _ <= _ |- _ => apply Qle_bool_iff in H; rewrite H
         | H : _ < _ |- _ => apply Qle_bool_false_iff in H; rewrite H
         end.

(** C5: the classifier is total, first match from the highest threshold
    down; 150 is suspicious, 149.999 extreme, 0 and -5 easy; every score
    gets one of the seven table classes, never unknown. *)
Theorem getDifficultyClass_total :
  class (getDifficultyClass 150) = "suspicious"%string
  /\ class (getDifficultyClass (149999 # 1000)) = "extreme"%string
  /\ class (getDifficultyClass 0) = "easy"%string
  /\ class (getDifficultyClass (-5 # 1)) = "easy"%string
  /\ (forall score : Q,
        In (class (getDifficultyClass score))
           ["suspicious"; "extreme"; "very-hard"; "hard"; "moderate";
            "accessible"; "easy"]%string
        /\ class (getDifficultyClass score) <> "unknown"%string)
  /\ (forall score : Q,
        (150 <= score -> class (getDifficultyClass score) = "suspicious"%string)
        /\ (130 <= score -> score < 150 ->
            class (getDifficultyClass score) = "extreme"%string)
        /\ (110 <= score -> score < 130 ->
            class (getDifficultyClass score) = "very-hard"%string)
        /\ (90 <= score -> score < 110 ->
            class (getDifficultyClass score) = "hard"%string)
        /\ (70 <= score -> score < 90 ->
            class (getDifficultyClass score) = "moderate"%string)
        /\ (50 <= score -> score < 70 ->
            class (getDifficultyClass score) = "accessible"%string)
        /\ (score < 50 -> class (getDifficultyClass score) = "easy"%string)).
Proof.
  repeat (split; [reflexivity|]).
  split.
  - intro score.
    pose proof (getDifficultyClass_in_table score) as Hin.
    simpl in Hin.
    repeat (destruct Hin as [<-|Hin]; [simpl; split; [tauto|discriminate]|]).
    contradiction.
  - intro score. unfold getDifficultyClass, DIFFICULTY_CLASSES, first_level, min.
    repeat split; intros.
    + decide_bands. reflexivity.
    + decide_bands. reflexivity.
    + assert (score < 150) by lra. decide_bands. reflexivity.
    + assert (score < 150) by lra. assert (score < 130) by lra.
      decide_bands. reflexivity.
    + assert (score < 150) by lra. assert (score < 130) by lra.
      assert (score < 110) by lra. decide_bands. reflexivity.
    + assert (score < 150) by lra. assert (score < 130) by lra.
      assert (score < 110) by lra. assert (score < 90) by lra.
      decide_bands. reflexivity.
    + assert (score < 150) by lra. assert (score < 130) by lra.
      assert (score < 110) by lra. assert (score < 90) by lra.
      assert (score < 70) by lra.
      destruct (Qle_bool 0 score); decide_bands; reflexivity.
Qed.

(* ================================================================== *)
(** ** Duration parser *)
(* ================================================================== *)

Section Parser.

Local Open Scope Z_scope.

Lemma takeWhile_dropWhile (p : N -> bool) (s : jsstring) :
  takeWhile p s ++ dropWhile p s = s.
Proof.
  induction s as [|c rest IH]; simpl; [reflexivity|].
  destruct (p c); simpl; [now rewrite IH|reflexivity].
Qed.

Lemma takeWhile_Forall (p : N -> bool) (s : jsstring) :
  Forall (fun c => p c = true) (takeWhile p s).
Proof.
  induction s as [|c rest IH]; simpl; [constructor|].
  destruct (p c) eqn:E; constructor; assumption.
Qed.

Lemma dropWhile_incl (p : N -> bool) (s : jsstring) (c : N) :
  In c (dropWhile p s) -> In c s.
Proof.
  induction s as [|a rest IH]; simpl; [tauto|].
  destruct (p a); simpl; tauto.
Qed.

Lemma trim_incl (s : jsstring) (c : N) : In c (trim s) -> In c s.
Proof.
  unfold trim, trimEnd, trimStart. intro H.
  apply in_rev in H. apply dropWhile_incl in H. apply in_rev in H.
  now apply dropWhile_incl in H.
Qed.

Lemma split_incl (sep : N) (s p : jsstring) (c : N) :
  In p (split sep s) -> In c p -> In c s.
Proof.
  revert p. induction s as [|a rest IH]; intros p Hp Hc; simpl in Hp.
  - destruct Hp as [<-|[]]. exact Hc.
  - destruct (a =? sep)%N.
    + destruct Hp as [<-|Hp]; [destruct Hc|]. right. now apply (IH p).
    + destruct (split sep rest) as [|p0 ps] eqn:E.
      * destruct Hp as [<-|[]]. destruct Hc as [<-|[]]. now left.
      * destruct Hp as [<-|Hp].
        -- destruct Hc as [<-|Hc]; [now left|]. right.
           apply (IH p0); [now left|exact Hc].
        -- right. apply (IH p); [now right|exact Hc].
Qed.

Lemma split_no_separator (sep : N) (s : jsstring) :
  ~ In sep s -> split sep s = [s].
Proof.
  induction s as [|a rest IH]; intro H; simpl; [reflexivity|].
  destruct (a =? sep)%N eqn:E.
  - apply N.eqb_eq in E. subst. exfalso. apply H. now left.
  - rewrite IH; [reflexivity|]. intro Hin. apply H. now right.
Qed.

Lemma isDigit_bounds (c : N) : isDigit c = true -> (48 <= c <= 57)%N.
Proof.
  unfold isDigit. intro H. apply andb_prop in H as [H1 H2].
  apply N.leb_le in H1, H2. lia.
Qed.

Lemma digit_not_white (c : N) : isDigit c = true -> isWhiteSpace c = false.
Proof.
  intro H. apply isDigit_bounds in H. unfold isWhiteSpace.
  repeat match goal with
         | |- context [(c =? ?k)%N] =>
             replace (c =? k)%N with false by (symmetry; apply N.eqb_neq; lia)
         end.
  replace (8192 <=? c)%N with false by (symmetry; apply N.leb_gt; lia).
  reflexivity.
Qed.

Lemma fold_digits_nonneg (ds : jsstring) (acc : Z) :
  Forall (fun c => isDigit c = true) ds -> 0 <= acc ->
  0 <= fold_left (fun a c => a * 10 + (Z.of_N c - 48)) ds acc.
Proof.
  revert acc. induction ds as [|c rest IH]; intros acc Hd Hacc; simpl.
  - exact Hacc.
  - inversion Hd as [|? ? Hc Hrest]; subst.
    apply IH; [exact Hrest|]. apply isDigit_bounds in Hc. lia.
Qed.

Lemma digitsValue_nonneg (ds : jsstring) :
  Forall (fun c => isDigit c = true) ds -> 0 <= digitsValue ds.
Proof. intro H. apply fold_digits_nonneg; [exact H|lia]. Qed.

(** Without a minus sign [parseInt] is never negative. *)
Lemma parseInt_nonneg (s : jsstring) (z : Z) :
  ~ In minus_sign s -> parseInt s = Int z -> 0 <= z.
Proof.
  intros Hm. unfold parseInt, trimStart.
  destruct (dropWhile isWhiteSpace s) as [|c rest] eqn:E.
  - simpl. discriminate.
  - assert (Hval : forall str,
               match takeWhile isDigit str with
               | [] => NaN
               | _ :: _ => Int (1 * digitsValue (takeWhile isDigit str))
               end = Int z -> 0 <= z).
    { intros str Hstr.
      pose proof (takeWhile_Forall isDigit str) as HF.
      destruct (takeWhile isDigit str); [discriminate|].
      rewrite Z.mul_1_l in Hstr. injection Hstr as <-.
      now apply digitsValue_nonneg. }
    destruct (c =? minus_sign)%N eqn:Em.
    + apply N.eqb_eq in Em. subst c. exfalso. apply Hm.
      apply (dropWhile_incl isWhiteSpace). rewrite E. now left.
    + destruct (c =? plus_sign)%N; intro H.
      * apply (Hval rest). destruct (takeWhile isDigit rest); exact H.
      * apply (Hval (c :: rest)). destruct (takeWhile isDigit (c :: rest)); exact H.
Qed.

(** A string accepted by the digits pattern begins with a digit, so
    [parseInt] reads a number from it. *)
Lemma test_digits_s_parseInt (s : jsstring) :
  test_digits_s s = true -> exists z, parseInt s = Int z.
Proof.
  unfold test_digits_s. intro H.
  destruct s as [|c rest]; [discriminate|].
  simpl in H. destruct (isDigit c) eqn:Ed; [|discriminate].
  unfold parseInt, trimStart. simpl dropWhile.
  rewrite (digit_not_white c Ed).
  apply isDigit_bounds in Ed as Hb.
  replace (c =? minus_sign)%N with false
    by (symmetry; apply N.eqb_neq; unfold minus_sign; lia).
  replace (c =? plus_sign)%N with false
    by (symmetry; apply N.eqb_neq; unfold plus_sign; lia).
  simpl. rewrite Ed. eexists. reflexivity.
Qed.

Lemma test_digits_s_no_colon (s : jsstring) :
  test_digits_s s = true -> ~ In colon s.
Proof.
  unfold test_digits_s. intros H Hin.
  rewrite <- (takeWhile_dropWhile isDigit s) in Hin.
  apply in_app_or in Hin as [Hin|Hin].
  - pose proof (takeWhile_Forall isDigit s) as HF.
    rewrite Forall_forall in HF. apply HF in Hin.
    apply isDigit_bounds in Hin. cbv in Hin. destruct Hin as [_ Hin]. now apply Hin.
  - destruct (takeWhile isDigit s); [discriminate|].
    destruct (dropWhile isDigit s) as [|c [|? ?]]; try discriminate.
    + destruct Hin.
    + destruct Hin as [->|[]]. discriminate.
Qed.

(** When no part is NaN, the parts are integers. *)
Lemma parts_are_integers (parts : list jsint) :
  existsb isNaN parts = false -> exists zs, parts = map Int zs.
Proof.
  induction parts as [|[|z] rest IH]; simpl; intro H.
  - now exists [].
  - discriminate.
  - destruct (IH H) as [zs ->]. now exists (z :: zs).
Qed.

Lemma parseKomTime_string (s : jsstring) :
  parseKomTime (Val (TStr s)) = Return (parsed_seconds s).
Proof.
  unfold parseKomTime, parsed_seconds, falsy_time, strict_eq_string, call_trim.
  destruct s as [|c rest]; [reflexivity|].
  cbn [orb]. destruct (jsstring_eqb (c :: rest) em_dash); [reflexivity|].
  cbn [bind]. destruct (test_digits_s (trim (c :: rest))); [reflexivity|].
  destruct (existsb isNaN (map parseInt (split colon (trim (c :: rest))))) eqn:E.
  - destruct (map parseInt (split colon (trim (c :: rest)))) as [|[|a] [|[|b] [|[|d] [|? ?]]]];
      simpl in E; try discriminate; reflexivity.
  - destruct (parts_are_integers _ E) as [zs ->].
    destruct zs as [|a [|b [|d [|? ?]]]]; reflexivity.
Qed.

(** On a string the parser of the model returns null or an integer.  (The
    code can return NaN, from two components that overflow to opposite
    infinities: such strings are outside [exact_time].) *)
Lemma parsed_seconds_integer (s : jsstring) :
  parsed_seconds s = None \/ exists z, parsed_seconds s = Some (Int z).
Proof.
  unfold parsed_seconds. destruct s as [|c rest]; [now left|].
  destruct (jsstring_eqb (c :: rest) em_dash); [now left|].
  cbv zeta. destruct (test_digits_s (trim (c :: rest))) eqn:E.
  - right. destruct (test_digits_s_parseInt _ E) as [z ->]. now exists z.
  - destruct (map parseInt (split colon (trim (c :: rest)))) as [|[|a] [|[|b] [|[|d] [|? ?]]]];
      try (now left); right; eexists; reflexivity.
Qed.

Lemma component_nonneg (s p : jsstring) (z : Z) :
  ~ In minus_sign s -> In p (split colon (trim s)) -> parseInt p = Int z -> 0 <= z.
Proof.
  intros Hm Hp. apply parseInt_nonneg. intro Hin. apply Hm.
  apply trim_incl. now apply (split_incl colon _ p).
Qed.

Lemma parsed_seconds_nonneg (s : jsstring) (z : Z) :
  ~ In minus_sign s -> parsed_seconds s = Some (Int z) ->
  0 <= z
  /\ (z = 0 -> Forall (fun p => parseInt p = Int 0) (split colon (trim s))).
Proof.
  intros Hm. unfold parsed_seconds. destruct s as [|c rest]; [discriminate|].
  destruct (jsstring_eqb (c :: rest) em_dash); [discriminate|].
  cbv zeta. set (clean := trim (c :: rest)).
  pose proof (component_nonneg (c :: rest)) as Hc. fold clean in Hc.
  destruct (test_digits_s clean) eqn:E.
  - intro H. injection H as H.
    rewrite (split_no_separator colon clean (test_digits_s_no_colon _ E)) in *.
    split.
    + apply (Hc clean z Hm); [now left|exact H].
    + intros ->. constructor; [exact H|constructor].
  - destruct (split colon clean) as [|p1 [|p2 [|p3 [|p4 ps]]]]; simpl map;
      try discriminate.
    + destruct (parseInt p1); discriminate.
    + destruct (parseInt p1) as [|a] eqn:E1; [discriminate|].
      destruct (parseInt p2) as [|b] eqn:E2; [discriminate|].
      intro H. injection H as <-.
      assert (0 <= a) by (apply (Hc p1 a Hm); simpl; tauto).
      assert (0 <= b) by (apply (Hc p2 b Hm); simpl; tauto).
      split; [lia|]. intro Hz.
      assert (a = 0) by lia. assert (b = 0) by lia. subst.
      repeat constructor; assumption.
    + destruct (parseInt p1) as [|a] eqn:E1; [discriminate|].
      destruct (parseInt p2) as [|b] eqn:E2; [discriminate|].
      destruct (parseInt p3) as [|d] eqn:E3; [discriminate|].
      intro H. injection H as <-.
      assert (0 <= a) by (apply (Hc p1 a Hm); simpl; tauto).
      assert (0 <= b) by (apply (Hc p2 b Hm); simpl; tauto).
      assert (0 <= d) by (apply (Hc p3 d Hm); simpl; tauto).
      split; [lia|]. intro Hz.
      assert (a = 0) by lia. assert (b = 0) by lia. assert (d = 0) by lia. subst.
      repeat constructor; assumption.
    + destruct (parseInt p1); [discriminate|].
      destruct (parseInt p2); [discriminate|].
      destruct (parseInt p3); [discriminate|].
      destruct (parseInt p4); [discriminate|].
      destruct (map parseInt ps); discriminate.
Qed.

(** Within the exact range the parsed count is a safe integer: the
    double the code returns is this integer. *)
Lemma exact_seconds_safe (s : jsstring) (z : Z) :
  exact_time (Val (TStr s)) = true -> parsed_seconds s = Some (Int z) ->
  isSafeInteger z = true.
Proof.
  unfold exact_time, exact_clean, parsed_seconds.
  destruct s as [|c rest]; [discriminate|].
  destruct (jsstring_eqb (c :: rest) em_dash); [discriminate|]. cbv zeta.
  destruct (test_digits_s (trim (c :: rest))).
  - intros H E. injection E as E. now rewrite E in H.
  - destruct (map parseInt (split colon (trim (c :: rest))))
      as [|[|a] [|[|b] [|[|d] [|? ?]]]]; try discriminate.
    + intros H E. injection E as <-. now apply andb_prop in H as [_ H].
    + intros H E. injection E as <-. now apply andb_prop in H as [_ H].
Qed.

End Parser.

(** C6: the parser on the format table: "45" and "45s" give 45, "5:30"
    gives 330, "1:23:45" gives 5025; the empty string, the dash and "abc"
    give null; on "5:3a" the code returns 303 (parseInt reads the "3" and
    drops the "a"), where the specification asks for null. *)
Theorem parseKomTime_format_table :
  parseKomTime (Val (TStr (js "45"))) = Return (Some (Int 45))
  /\ parseKomTime (Val (TStr (js "45s"))) = Return (Some (Int 45))
  /\ parseKomTime (Val (TStr (js "5:30"))) = Return (Some (Int 330))
  /\ parseKomTime (Val (TStr (js "1:23:45"))) = Return (Some (Int 5025))
  /\ parseKomTime (Val (TStr [])) = Return None
  /\ parseKomTime (Val (TStr em_dash)) = Return None
  /\ parseKomTime (Val (TStr (js "abc"))) = Return None
  /\ parseInt (js "3a") = Int 3
  /\ parseKomTime (Val (TStr (js "5:3a"))) = Return (Some (Int 303)).
Proof. repeat split; reflexivity. Qed.

(** C7: the parser on "-5:30".  The code returns -270, a negative
    number, where the specification asks for a non-negative count of
    seconds or null: [parseInt] accepts the sign of "-5", so the
    component passes the [isNaN] check.  The digits branch does refuse a
    sign: "-45" gives null.  Without a minus sign, and within the safe
    integers, the count is non-negative, and zero only when every
    colon-separated component parses to zero. *)
Theorem parseKomTime_negative :
  parseInt (js "-5") = Int (-5)
  /\ parseKomTime (Val (TStr (js "-5:30"))) = Return (Some (Int (-270)))
  /\ (-270 < 0)%Z
  /\ parseKomTime (Val (TStr (js "-45"))) = Return None
  /\ (forall (s : jsstring) (z : Z),
        ~ In minus_sign s -> exact_time (Val (TStr s)) = true ->
        parseKomTime (Val (TStr s)) = Return (Some (Int z)) ->
        (0 <= z)%Z /\ isSafeInteger z = true
        /\ (z = 0%Z ->
            Forall (fun p => parseInt p = Int 0) (split colon (trim s)))).
Proof.
  do 4 (split; [reflexivity|]).
  intros s z Hm He Hz. rewrite parseKomTime_string in Hz.
  injection Hz as Hz.
  destruct (parsed_seconds_nonneg s z Hm Hz) as [H0 Hall].
  split; [exact H0|]. split; [|exact Hall].
  now apply (exact_seconds_safe s).
Qed.

(** The last part at "0:00", a string without minus sign whose value is
    zero. *)
Lemma parseKomTime_negative_witness :
  (0 <= 0)%Z /\ isSafeInteger 0 = true
  /\ (0 = 0 ->
      Forall (fun p => parseInt p = Int 0) (split colon (trim (js "0:00"))))%Z.
Proof.
  apply (proj2 (proj2 (proj2 (proj2 parseKomTime_negative))) (js "0:00")).
  - cbv. intuition discriminate.
  - reflexivity.
  - reflexivity.
Defined.

(* ================================================================== *)
(** ** Orchestrator *)
(* ================================================================== *)

Section Orchestrator.

Lemma falsy_pos (d : Q) : 0 < d -> falsy (Val d) = false.
Proof.
  intro H. simpl. destruct (Qeq_bool d 0) eqn:E; [|reflexivity].
  apply Qeq_bool_iff in E. lra.
Qed.

Lemma le0_pos (d : Q) : 0 < d -> le0 (Val d) = false.
Proof. intro H. simpl. now apply Qle_bool_false_iff. Qed.

Lemma parseKomTime_falsy (k : nullable timeval) :
  falsy_time k = true -> parseKomTime k = Return None.
Proof. intro H. unfold parseKomTime. now rewrite H. Qed.

(** An input that passes every guard: positive distance and rider mass,
    a KOM time parsed to a positive number of seconds. *)
Section Scoreable.

Variables (d m : Q) (k : nullable timeval) (z : Z).
Hypothesis distance_positive : 0 < d.
Hypothesis mass_positive : 0 < m.
Hypothesis time_parsed : parseKomTime k = Return (Some (Int z)).
Hypothesis time_positive : (0 < z)%Z.

Lemma scoreable_time_truthy : falsy_time k = false.
Proof.
  destruct (falsy_time k) eqn:E; [|reflexivity].
  rewrite (parseKomTime_falsy k E) in time_parsed. discriminate.
Qed.

Lemma scoreable_passes_guard (e : Q) :
  rejected_by_guard (mkOptions (Val d) (Val e) k (Val m)) = false.
Proof.
  unfold rejected_by_guard. cbn [distance elevation komTime riderMass].
  now rewrite (falsy_pos d), (le0_pos d), (falsy_pos m), (le0_pos m),
    scoreable_time_truthy.
Qed.

(** Such an input is scored, whatever its elevation. *)
Lemma calculateSegmentDifficulty_scored (e : Q) :
  calculateSegmentDifficulty (mkOptions (Val d) (Val e) k (Val m))
  = Return (scored d e (inject_Z z) m).
Proof.
  unfold calculateSegmentDifficulty. cbn [distance elevation komTime riderMass].
  rewrite (falsy_pos d), (le0_pos d), (falsy_pos m), (le0_pos m),
    scoreable_time_truthy by assumption.
  cbn [orb eq_null]. rewrite time_parsed. cbn [bind falsy_seconds le0_seconds].
  replace (Z.eqb z 0) with false by (symmetry; apply Z.eqb_neq; lia).
  replace (Z.leb z 0) with false by (symmetry; apply Z.leb_gt; lia).
  reflexivity.
Qed.

End Scoreable.

(** On the scoring path no divisor is zero: exact arithmetic stays in [Q]. *)
Lemma valid_path_divisors (d m : Q) (z : Z) :
  0 < d -> 0 < m -> (0 < z)%Z ->
  ~ inject_Z z == 0 /\ ~ d == 0 /\ ~ PHYSICS.eta == 0 /\ ~ m == 0
  /\ ~ referencePower (inject_Z z) == 0.
Proof.
  intros Hd Hm Hz.
  assert (0 < inject_Z z) by (change 0 with (inject_Z 0); rewrite <- Zlt_Qlt; lia).
  pose proof (referencePower_positive (inject_Z z)).
  repeat split; try lra. discriminate.
Qed.

Lemma inject_Z_pos (z : Z) : (0 < z)%Z -> 0 < inject_Z z.
Proof. intro H. change 0 with (inject_Z 0). now rewrite <- Zlt_Qlt. Qed.

(** The three checks after the first guard repeat it and never fire. *)
Lemma calculateSegmentDifficulty_unfold (o : options) :
  calculateSegmentDifficulty o =
  if rejected_by_guard o then Return defaultResult
  else
    komSeconds <- parseKomTime (komTime o) ;;
    if falsy_seconds komSeconds || le0_seconds komSeconds
    then Return defaultResult
    else Return (scored (to_number (distance o)) (to_number (elevation o))
                        (seconds_to_number komSeconds) (to_number (riderMass o))).
Proof.
  unfold calculateSegmentDifficulty, rejected_by_guard. cbv zeta.
  destruct (falsy (distance o) || le0 (distance o)); [reflexivity|].
  destruct (eq_null (elevation o)); [reflexivity|].
  destruct (falsy (riderMass o) || le0 (riderMass o)); [reflexivity|].
  destruct (falsy_time (komTime o)); reflexivity.
Qed.

(** Fields that pass the guard are numbers. *)
Lemma validated_fields_are_numbers (o : options) :
  rejected_by_guard o = false ->
  exists d e m,
    distance o = Val d /\ 0 < d /\ elevation o = Val e
    /\ riderMass o = Val m /\ 0 < m /\ falsy_time (komTime o) = false.
Proof.
  unfold rejected_by_guard. intro H.
  apply orb_false_elim in H as [H Hk].
  apply orb_false_elim in H as [H Hm].
  apply orb_false_elim in H as [Hd He].
  apply orb_false_elim in Hd as [Hd' Hd].
  apply orb_false_elim in Hm as [Hm' Hm].
  destruct (distance o) as [| |d]; try discriminate.
  destruct (elevation o) as [| |e]; try discriminate.
  destruct (riderMass o) as [| |m]; try discriminate.
  exists d, e, m. simpl in Hd, Hm.
  repeat split; try assumption; now apply Qle_bool_false_iff.
Qed.

Lemma absent_or_nonpositive_guard (x : nullable Q) :
  absent_or_nonpositive x <-> falsy x || le0 x = true.
Proof.
  destruct x as [| |q]; simpl; try tauto.
  rewrite <- Qle_bool_iff. split; intro H.
  - rewrite H. apply orb_true_r.
  - apply orb_prop in H as [H|H]; [|exact H].
    apply Qeq_bool_iff in H. apply Qle_bool_iff. lra.
Qed.

(** The orchestrator throws exactly when a finite number other than 0 is
    supplied as KOM time and the first guard lets the input through. *)
Lemma calculateSegmentDifficulty_completion (o : options) :
  (exists x, komTime o = Val (TNum x) /\ ~ x == 0 /\ rejected_by_guard o = false
             /\ calculateSegmentDifficulty o = Throw TypeError)
  \/ calculateSegmentDifficulty o = Return defaultResult
  \/ (exists d e m z,
        distance o = Val d /\ 0 < d /\ elevation o = Val e
        /\ riderMass o = Val m /\ 0 < m
        /\ parseKomTime (komTime o) = Return (Some (Int z)) /\ (0 < z)%Z
        /\ calculateSegmentDifficulty o = Return (scored d e (inject_Z z) m)).
Proof.
  rewrite calculateSegmentDifficulty_unfold.
  destruct (rejected_by_guard o) eqn:G; [right; now left|].
  destruct (validated_fields_are_numbers o G)
    as (d & e & m & Hd & Hd0 & He & Hm & Hm0 & Hk).
  destruct (komTime o) as [| |[s|x]] eqn:K; try discriminate.
  - rewrite parseKomTime_string. cbn [bind].
    destruct (parsed_seconds_integer s) as [->|[z Hz]]; [right; now left|].
    rewrite Hz. cbn [falsy_seconds le0_seconds seconds_to_number].
    destruct (Z.eqb z 0) eqn:E0; [right; now left|].
    destruct (Z.leb z 0) eqn:E1; [right; now left|].
    right. right. exists d, e, m, z. rewrite Hd, He, Hm.
    apply Z.leb_gt in E1. repeat split; try assumption; reflexivity.
  - left. exists x. simpl in Hk.
    assert (~ x == 0).
    { intro Hx. apply Qeq_bool_iff in Hx. congruence. }
    repeat split; try assumption.
    unfold parseKomTime. simpl. now rewrite Hk.
Qed.

Lemma fails_validation_default (o : options) :
  fails_validation o -> calculateSegmentDifficulty o = Return defaultResult.
Proof.
  intro H. rewrite calculateSegmentDifficulty_unfold.
  destruct (rejected_by_guard o) eqn:G; [reflexivity|].
  destruct (validated_fields_are_numbers o G)
    as (d & e & m & Hd & Hd0 & He & Hm & Hm0 & Hk).
  destruct H as [H|[H|[H|[[H|[H|[H|(z & Hz & Hle)]]]|H]]]].
  - rewrite Hd in H. simpl in H. lra.
  - rewrite He in H. discriminate.
  - rewrite Hm in H. simpl in H. lra.
  - rewrite H in Hk. discriminate.
  - rewrite H in Hk. discriminate.
  - rewrite H in Hk. discriminate.
  - rewrite Hz. cbn [bind falsy_seconds le0_seconds].
    replace (Z.leb z 0) with true by (symmetry; apply Z.leb_le; lia).
    now rewrite orb_true_r.
  - rewrite H. reflexivity.
Qed.

Lemma guard_fails_validation (o : options) :
  text_or_absent (komTime o) -> rejected_by_guard o = true -> fails_validation o.
Proof.
  unfold rejected_by_guard, fails_validation. intros Ht H.
  apply orb_prop in H as [H|H]; [apply orb_prop in H as [H|H];
                                 [apply orb_prop in H as [H|H]|]|].
  - left. now apply absent_or_nonpositive_guard.
  - right. now left.
  - right. right. left. now apply absent_or_nonpositive_guard.
  - right. right. right. left. unfold time_fails_as_stated.
    destruct (komTime o) as [| |[[|c rest]|x]]; simpl in *;
      try tauto; discriminate.
Qed.

(** With a textual or absent KOM time, an input either fails a check
    or is scored. *)
Lemma validity_dichotomy (o : options) :
  text_or_absent (komTime o) ->
  fails_validation o
  \/ exists d e m z,
       distance o = Val d /\ 0 < d /\ elevation o = Val e
       /\ riderMass o = Val m /\ 0 < m
       /\ parseKomTime (komTime o) = Return (Some (Int z)) /\ (0 < z)%Z
       /\ calculateSegmentDifficulty o = Return (scored d e (inject_Z z) m).
Proof.
  intro Ht.
  destruct (calculateSegmentDifficulty_completion o)
    as [(x & K & _)|[H|H]].
  - rewrite K in Ht. destruct Ht.
  - left. rewrite calculateSegmentDifficulty_unfold in H.
    destruct (rejected_by_guard o) eqn:G; [now apply guard_fails_validation|].
    unfold fails_validation, time_fails_as_stated.
    destruct (komTime o) as [| |[s|x]]; try destruct Ht.
    + tauto.
    + tauto.
    + rewrite parseKomTime_string in *. cbn [bind] in H.
      destruct (parsed_seconds_integer s) as [E|[z E]]; rewrite E in *.
      * tauto.
      * right. right. right. left. repeat right. exists z. split; [reflexivity|].
        cbn [falsy_seconds le0_seconds] in H.
        destruct (Z.eqb z 0) eqn:E0; [apply Z.eqb_eq in E0; lia|].
        destruct (Z.leb z 0) eqn:E1; [apply Z.leb_le in E1; lia|].
        discriminate.
  - now right.
Qed.

End Orchestrator.



(* ================================================================== *)
(** ** Validity gating *)
(* ================================================================== *)

(** C3, as stated, fails: the number 1200 as KOM time is present, not
    empty, and not parsed to a non-positive duration, so the input passes
    every listed check (a failed parse counted among the failures); it
    gets no result at all, valid or not: the parser throws. *)
Lemma numeric_time_is_not_scored :
  ~ fails_validation numeric_time_options
  /\ calculateSegmentDifficulty numeric_time_options = Throw TypeError
  /\ (forall r, calculateSegmentDifficulty numeric_time_options <> Return r).
Proof.
  split; [|split; [reflexivity|discriminate]].
  unfold fails_validation, time_fails_as_stated, numeric_time_options. simpl.
  intros [H|[H|[H|[[H|[H|[H|(z & H & _)]]]|H]]]]; try discriminate.
  - apply Qle_bool_iff in H. discriminate.
  - apply Qle_bool_iff in H. discriminate.
Qed.

(** C3, amended: when distance is absent or not positive, or elevation is
    null or undefined, or the rider mass is absent or not positive, or the
    KOM time is absent, empty or a string the parser rejects, the result
    is exactly the invalid sentinel; so it is when the time is a string
    parsed, within the safe integers, to a non-positive duration; every
    input with a textual KOM time within the safe integers that passes
    all these checks gets isValid: true and non-null numeric fields. *)
Theorem calculateSegmentDifficulty_validity (o : options) :
  (absent_or_nonpositive (distance o)
   \/ eq_null (elevation o) = true
   \/ absent_or_nonpositive (riderMass o)
   \/ komTime o = Undefined \/ komTime o = Null \/ komTime o = Val (TStr [])
   \/ parseKomTime (komTime o) = Return None ->
   calculateSegmentDifficulty o = Return defaultResult)
  /\ (exact_time (komTime o) = true -> fails_validation o ->
      calculateSegmentDifficulty o = Return defaultResult)
  /\ defaultResult
     = mkResult None None None (mkClass "unknown" "—" "#9ca3af") false
  /\ (text_or_absent (komTime o) -> exact_time (komTime o) = true ->
      ~ fails_validation o ->
      exists P Pkg score c,
        calculateSegmentDifficulty o
        = Return (mkResult (Some P) (Some Pkg) (Some score) c true)).
Proof.
  split; [|split; [|split; [reflexivity|]]].
  - intro H. apply fails_validation_default.
    unfold fails_validation, time_fails_as_stated. tauto.
  - intros _. apply fails_validation_default.
  - intros Ht _ Hv.
    destruct (validity_dichotomy o Ht) as [H|(d & e & m & z & H)]; [contradiction|].
    decompose [and] H. eexists _, _, _, _. eassumption.
Qed.

(** The amended statement on an input that fails (distance 0), on one
    whose time is parsed to a negative duration ("-5:30"), and on the
    end-to-end example, which passes. *)
Lemma calculateSegmentDifficulty_validity_witness :
  calculateSegmentDifficulty
    (mkOptions (Val 0) (Val 300) (Val (TStr (js "20:00"))) (Val 75))
  = Return defaultResult
  /\ calculateSegmentDifficulty
       (mkOptions (Val 5000) (Val 300) (Val (TStr (js "-5:30"))) (Val 75))
     = Return defaultResult
  /\ exists P Pkg score c,
       calculateSegmentDifficulty
         (mkOptions (Val 5000) (Val 300) (Val (TStr (js "20:00"))) (Val 75))
       = Return (mkResult (Some P) (Some Pkg) (Some score) c true).
Proof.
  split; [|split].
  - apply (proj1 (calculateSegmentDifficulty_validity
                    (mkOptions (Val 0) (Val 300) (Val (TStr (js "20:00"))) (Val 75)))).
    left. simpl. apply Qle_bool_iff. reflexivity.
  - apply (proj1 (proj2 (calculateSegmentDifficulty_validity
                    (mkOptions (Val 5000) (Val 300) (Val (TStr (js "-5:30"))) (Val 75))))).
    + reflexivity.
    + right. right. right. left. repeat right. exists (-270)%Z.
      split; [reflexivity|discriminate].
  - apply (proj2 (proj2 (proj2 (calculateSegmentDifficulty_validity
                    (mkOptions (Val 5000) (Val 300) (Val (TStr (js "20:00"))) (Val 75)))))).
    + exact I.
    + reflexivity.
    + unfold fails_validation, time_fails_as_stated. simpl.
      intros [H|[H|[H|[[H|[H|[H|(z & H & Hz)]]]|H]]]]; try discriminate.
      * apply Qle_bool_iff in H. discriminate.
      * apply Qle_bool_iff in H. discriminate.
      * injection H as <-. apply Z.leb_le in Hz. discriminate.
Defined.

(* ================================================================== *)
(** ** Exceptions *)
(* ================================================================== *)

(** C8, as stated, fails: with the KOM time given as the number 1200 the
    call of [trim] in the parser throws a TypeError. *)
Lemma numeric_time_throws :
  parseKomTime (Val (TNum 1200)) = Throw TypeError
  /\ calculateSegmentDifficulty numeric_time_options = Throw TypeError.
Proof. split; reflexivity. Qed.

(** C8, amended: with a KOM time that is a string, null, undefined or
    the number 0 the orchestrator never throws, and a result that is not
    valid is the sentinel; an input stopped by the first guard never
    throws either; a finite number other than 0 as KOM time, on an input
    the guard lets through, throws a TypeError.  (The numbers of the
    model are the finite ones; NaN, like 0, is falsy and stopped by the
    guard.) *)
Theorem calculateSegmentDifficulty_exceptions (o : options) :
  (text_absent_or_zero (komTime o) ->
   exists r, calculateSegmentDifficulty o = Return r
             /\ (isValid r = false -> r = defaultResult))
  /\ (rejected_by_guard o = true ->
      calculateSegmentDifficulty o = Return defaultResult)
  /\ (forall x, komTime o = Val (TNum x) -> ~ x == 0 ->
      rejected_by_guard o = false ->
      calculateSegmentDifficulty o = Throw TypeError).
Proof.
  split; [|split].
  - intro Ht.
    destruct (calculateSegmentDifficulty_completion o)
      as [(x & K & Hx & _)|[H|(d & e & m & z & H)]].
    + rewrite K in Ht. simpl in Ht. contradiction.
    + exists defaultResult. now split.
    + decompose [and] H. eexists. split; [eassumption|]. discriminate.
  - intro G. rewrite calculateSegmentDifficulty_unfold. now rewrite G.
  - intros x K Hx G. rewrite calculateSegmentDifficulty_unfold, G, K.
    unfold parseKomTime. simpl.
    destruct (Qeq_bool x 0) eqn:E; [|reflexivity].
    apply Qeq_bool_iff in E. contradiction.
Qed.

(** The amended statement on a malformed string and on the number 1200. *)
Lemma calculateSegmentDifficulty_exceptions_witness :
  (exists r, calculateSegmentDifficulty unparseable_options = Return r
             /\ (isValid r = false -> r = defaultResult))
  /\ calculateSegmentDifficulty numeric_time_options = Throw TypeError.
Proof.
  split.
  - apply (proj1 (calculateSegmentDifficulty_exceptions unparseable_options)).
    exact I.
  - apply (proj2 (proj2 (calculateSegmentDifficulty_exceptions numeric_time_options))
             1200).
    + reflexivity.
    + discriminate.
    + reflexivity.
Defined.

(* ================================================================== *)
(** ** End-to-end example *)
(* ================================================================== *)

Lemma example_duration :
  parseKomTime (komTime example_options) = Return (Some (Int 1200)).
Proof. reflexivity. Qed.

Lemma example_result :
  calculateSegmentDifficulty example_options
  = Return (scored 5000 300 (inject_Z 1200) 75).
Proof. apply calculateSegmentDifficulty_scored; reflexivity. Qed.

(** C2, as stated, fails: the example's score is below 70, so its class
    is "accessible" and not "moderate"; the power is below 234 W. *)
Lemma example_is_not_moderate :
  exists r P score,
    calculateSegmentDifficulty example_options = Return r
    /\ komPower r = Some P /\ P < 234
    /\ difficultyScore r = Some score /\ score < 70
    /\ class (difficultyClass r) = "accessible"%string
    /\ class (difficultyClass r) <> "moderate"%string.
Proof.
  eexists _, _, _. split; [exact example_result|].
  split; [reflexivity|]. split; [vm_compute; reflexivity|].
  split; [reflexivity|]. split; [vm_compute; reflexivity|].
  split; [vm_compute; reflexivity|].
  vm_compute. discriminate.
Qed.

(** C2, amended: the example is valid with requiredPower about 233.96 W,
    requiredPowerPerKg about 3.12 W/kg, reference power about 5.00 W/kg,
    difficultyScore about 62.39 and class "accessible". *)
Theorem example_end_to_end :
  exists r P Pkg score,
    calculateSegmentDifficulty example_options = Return r
    /\ isValid r = true
    /\ komPower r = Some P /\ 23395 # 100 < P /\ P < 23397 # 100
    /\ komPowerWKg r = Some Pkg /\ 3119 # 1000 < Pkg /\ Pkg < 3120 # 1000
    /\ 5000 # 1000 < referencePower 1200 /\ referencePower 1200 < 5001 # 1000
    /\ difficultyScore r = Some score /\ 6238 # 100 < score /\ score < 6239 # 100
    /\ difficultyClass r = mkClass "accessible" "Machbar" "#16a34a".
Proof.
  eexists _, _, _, _. split; [exact example_result|].
  repeat split; vm_compute; reflexivity.
Qed.

(* ================================================================== *)
(** ** The arithmetic of the code on doubles *)
(* ================================================================== *)

(** The constants and the two formulas once more, on binary64 floats
    with the rounding of IEEE 754, operation by operation as the code
    evaluates them. *)
Module Binary64.

Import PrimFloat.
Local Open Scope float_scope.
Set Warnings "-inexact-float".

Module PHYSICS.
Definition g : float := 9.81.
Definition rho : float := 1.2.
Definition bikeMass : float := 8.
Definition Crr : float := 0.004.
Definition CdA : float := 0.28.
Definition eta : float := 0.98.
End PHYSICS.

Module CP_MODEL.
Definition Pmax : float := 21.80.
Definition CP : float := 4.77.
Definition Wprime : float := 280.
End CP_MODEL.

Definition APR : float := CP_MODEL.Pmax - CP_MODEL.CP.
Definition W_APR : float := CP_MODEL.Wprime * APR.

Definition referencePower (t : float) : float :=
  if t <=? 0 then CP_MODEL.Pmax
  else CP_MODEL.CP + W_APR / (CP_MODEL.Wprime + APR * t).

Record power_result : Set := mkPower {
  P_total : float;
  P_totalWkg : float
}.

Definition calculateRequiredW (distance elevation timeSeconds riderMass : float)
  : power_result :=
  let v := distance / timeSeconds in
  let grade := elevation / distance in
  let totalMass := riderMass + PHYSICS.bikeMass in
  let P_gravity := totalMass * PHYSICS.g * v * grade in
  let P_rolling := totalMass * PHYSICS.g * v * PHYSICS.Crr in
  let P_aero := 0.5 * PHYSICS.rho * PHYSICS.CdA * v * v * v in
  let P_total := (P_gravity + P_rolling + P_aero) / PHYSICS.eta in
  let P_totalWkg := P_total / riderMass in
  mkPower P_total P_totalWkg.

Set Warnings "inexact-float".

End Binary64.

(* ================================================================== *)
(** ** Downhill segments *)
(* ================================================================== *)

(** The power grows with the elevation. *)
Lemma P_total_monotone (d t m e1 e2 : Q) :
  0 < d -> 0 < t -> 0 < m -> e1 <= e2 ->
  P_total (calculateRequiredW d e1 t m) <= P_total (calculateRequiredW d e2 t m).
Proof.
  intros Hd Ht Hm He. unfold calculateRequiredW. cbn [P_total].
  unfold Qdiv at 1 5.
  apply Qmult_le_compat_r; [|discriminate].
  apply Qplus_le_l. apply Qplus_le_l.
  assert (Hv : 0 < d / t) by (apply Qlt_shift_div_l; lra).
  assert (Hc : 0 < (m + PHYSICS.bikeMass) * PHYSICS.g * (d / t)).
  { unfold PHYSICS.bikeMass, PHYSICS.g. nra. }
  apply Qmult_le_l; [exact Hc|].
  unfold Qdiv. apply Qmult_le_compat_r; [exact He|].
  apply Qlt_le_weak. now apply Qinv_lt_0_compat.
Qed.

Section Downhill.

Import PrimFloat.
Set Warnings "-inexact-float".

(** C9, as stated, fails: the doubles of the code do not tell every
    elevation from the next.  At 5000 m in 1200 s with 75 kg a descent
    of 1e-17 m gives the power of the flat segment, bit for bit, and so
    do the elevations 12.3 m and 12.300000000000002 m: lower elevation,
    same power.  Beyond ordinary magnitudes the order is lost
    altogether: at 1e308 m in one second the power is NaN at -1 m and at
    0 m. *)
Lemma requiredPower_not_strict :
  ((-1e-17)%float <? 0%float)%float = true
  /\ Binary64.P_total (Binary64.calculateRequiredW 5000 (-1e-17) 1200 75)
     = Binary64.P_total (Binary64.calculateRequiredW 5000 0 1200 75)
  /\ (12.3%float <? 12.300000000000002%float)%float = true
  /\ Binary64.P_total (Binary64.calculateRequiredW 5000 12.3 1200 75)
     = Binary64.P_total (Binary64.calculateRequiredW 5000 12.300000000000002 1200 75)
  /\ (Binary64.P_total (Binary64.calculateRequiredW 1e308 (-1) 1 75)
      <=? Binary64.P_total (Binary64.calculateRequiredW 1e308 0 1 75))%float
     = false.
Proof. vm_compute. repeat split; reflexivity. Qed.

(** C9, amended: with distance, duration and rider mass fixed, on inputs
    of ordinary magnitude and a duration within the safe integers,
    requiredPower does not decrease when the elevation gain grows, and
    the result stays valid.  For -100 m over 5000 m in 20:00 and 75 kg
    it is strictly below the power of the flat segment, in exact
    arithmetic and on the doubles of the code; it is negative and
    returned as it is, in a valid result of class "easy". *)
Theorem requiredPower_monotone_in_elevation :
  (forall (d m e1 e2 : Q) (k : nullable timeval) (z : Z),
     ordinary d e1 m -> ordinary d e2 m ->
     exact_time k = true ->
     parseKomTime k = Return (Some (Int z)) -> (0 < z)%Z ->
     e1 <= e2 ->
     exists r1 r2 P1 P2,
       calculateSegmentDifficulty (mkOptions (Val d) (Val e1) k (Val m)) = Return r1
       /\ calculateSegmentDifficulty (mkOptions (Val d) (Val e2) k (Val m)) = Return r2
       /\ isValid r1 = true /\ isValid r2 = true
       /\ komPower r1 = Some P1 /\ komPower r2 = Some P2
       /\ P1 <= P2)
  /\ (exists r1 r2 P1 P2,
        calculateSegmentDifficulty
          (mkOptions (Val 5000) (Val (-100 # 1)) (Val (TStr (js "20:00"))) (Val 75))
        = Return r1
        /\ calculateSegmentDifficulty
             (mkOptions (Val 5000) (Val 0) (Val (TStr (js "20:00"))) (Val 75))
           = Return r2
        /\ isValid r1 = true /\ isValid r2 = true
        /\ komPower r1 = Some P1 /\ komPower r2 = Some P2
        /\ P1 < P2 /\ P1 < 0
        /\ class (difficultyClass r1) = "easy"%string)
  /\ (Binary64.P_total (Binary64.calculateRequiredW 5000 (-100) 1200 75)
      <? Binary64.P_total (Binary64.calculateRequiredW 5000 0 1200 75))%float
     = true
  /\ (Binary64.P_total (Binary64.calculateRequiredW 5000 (-100) 1200 75)
      <? 0%float)%float
     = true.
Proof.
  split; [|split; [|split]].
  - intros d m e1 e2 k z (Hd & _ & _ & _ & Hm & _) _ _ Hk Hz He.
    assert (Hd0 : 0 < d) by lra. assert (Hm0 : 0 < m) by lra.
    eexists _, _, _, _.
    split; [apply (calculateSegmentDifficulty_scored d m k z); assumption|].
    split; [apply (calculateSegmentDifficulty_scored d m k z); assumption|].
    repeat (split; [reflexivity|]). cbn [scored komPower].
    apply P_total_monotone; try assumption.
    now apply inject_Z_pos.
  - eexists _, _, _, _.
    split; [apply (calculateSegmentDifficulty_scored _ _ _ 1200%Z); reflexivity|].
    split; [apply (calculateSegmentDifficulty_scored _ _ _ 1200%Z); reflexivity|].
    repeat split; vm_compute; reflexivity.
  - vm_compute. reflexivity.
  - vm_compute. reflexivity.
Qed.

(** -100 m over 5000 m against the flat segment. *)
Lemma requiredPower_monotone_in_elevation_witness :
  exists r1 r2 P1 P2,
    calculateSegmentDifficulty
      (mkOptions (Val 5000) (Val (-100 # 1)) (Val (TStr (js "20:00"))) (Val 75))
    = Return r1
    /\ calculateSegmentDifficulty
         (mkOptions (Val 5000) (Val 0) (Val (TStr (js "20:00"))) (Val 75))
       = Return r2
    /\ isValid r1 = true /\ isValid r2 = true
    /\ komPower r1 = Some P1 /\ komPower r2 = Some P2
    /\ P1 <= P2.
Proof.
  apply (proj1 requiredPower_monotone_in_elevation 5000 75 (-100 # 1) 0
           (Val (TStr (js "20:00"))) 1200%Z);
    try reflexivity; try (unfold ordinary; lra); discriminate.
Defined.

Set Warnings "inexact-float".

End Downhill.

(* ================================================================== *)
(** ** Segment records *)
(* ================================================================== *)

Lemma falsy_truthy (x : nullable Q) : falsy x = false <-> truthy x.
Proof.
  unfold truthy. destruct x as [| |q]; simpl.
  - split; [discriminate|]. intros (q & H & _). discriminate.
  - split; [discriminate|]. intros (q & H & _). discriminate.
  - split.
    + intro H. exists q. split; [reflexivity|].
      intro E. apply Qeq_bool_iff in E. congruence.
    + intros (q' & H & Hq). injection H as <-.
      destruct (Qeq_bool q 0) eqn:E; [|reflexivity].
      apply Qeq_bool_iff in E. contradiction.
Qed.

Lemma eq_null_present {A} (x : nullable A) : eq_null x = false <-> present x.
Proof.
  unfold present. destruct x; simpl; split; try discriminate;
    try (intros [a H]; discriminate); eauto.
Qed.

(** C10: the wrapper passes on: as distance, details.distance when it is
    truthy and data.distance otherwise; as elevation,
    data.elev_difference when it is not nullish, else
    details.total_elevation_gain when that is not nullish, else 0, so
    the elevation is never null or undefined; as KOM time,
    details.xoms.kom. *)
Theorem getSegmentDifficulty_normalization :
  (forall (seg : segment) (riderMass : nullable Q),
     exists distance elevation komTime,
       getSegmentDifficulty seg riderMass
       = calculateSegmentDifficulty (mkOptions distance elevation komTime riderMass)
       /\ (truthy (chain (details seg) Details.distance) ->
           distance = chain (details seg) Details.distance)
       /\ (~ truthy (chain (details seg) Details.distance) ->
           distance = chain (data seg) Data.distance)
       /\ (present (chain (data seg) Data.elev_difference) ->
           elevation = chain (data seg) Data.elev_difference)
       /\ (~ present (chain (data seg) Data.elev_difference) ->
           present (chain (details seg) Details.total_elevation_gain) ->
           elevation = chain (details seg) Details.total_elevation_gain)
       /\ (~ present (chain (data seg) Data.elev_difference) ->
           ~ present (chain (details seg) Details.total_elevation_gain) ->
           elevation = Val 0)
       /\ eq_null elevation = false
       /\ komTime = chain (chain (details seg) Details.xoms) Xoms.kom)
  /\ getSegmentDifficulty segment_without_elevation (Val 75)
     = Return (scored 5000 0 (inject_Z 1200) 75).
Proof.
  split.
  - intros seg riderMass. unfold getSegmentDifficulty. cbv zeta.
    eexists _, _, _. split; [reflexivity|].
    unfold or_else, coalesce.
    repeat split.
    + intro H. apply falsy_truthy in H. now rewrite H.
    + intro H. destruct (falsy (chain (details seg) Details.distance)) eqn:E;
        [reflexivity|]. apply falsy_truthy in E. contradiction.
    + intro H. apply eq_null_present in H. rewrite H. now rewrite H.
    + intros H1 H2.
      destruct (eq_null (chain (data seg) Data.elev_difference)) eqn:E1;
        [|apply eq_null_present in E1; contradiction].
      apply eq_null_present in H2. now rewrite H2.
    + intros H1 H2.
      destruct (eq_null (chain (data seg) Data.elev_difference)) eqn:E1;
        [|apply eq_null_present in E1; contradiction].
      destruct (eq_null (chain (details seg) Details.total_elevation_gain)) eqn:E2;
        [|apply eq_null_present in E2; contradiction].
      reflexivity.
    + destruct (eq_null (chain (data seg) Data.elev_difference)) eqn:E1;
        [|now rewrite E1].
      destruct (eq_null (chain (details seg) Details.total_elevation_gain)) eqn:E2;
        [reflexivity|now rewrite E2].
  - apply (calculateSegmentDifficulty_scored 5000 75 _ 1200%Z); reflexivity.
Qed.

(* ================================================================== *)
(** ** Further properties of the duration parser *)
(* ================================================================== *)

(** A non-empty run of decimal digits. *)
Definition digits (ds : jsstring) : Prop :=
  ds <> [] /\ Forall (fun c => isDigit c = true) ds.

(** Number of colons of a string. *)
Definition colons (s : jsstring) : nat := count_occ N.eq_dec s colon.

Section ParserGrammar.

Local Open Scope Z_scope.

(** The predicate fails on the first unit, if there is one. *)
Definition stops (p : N -> bool) (s : jsstring) : Prop :=
  forall c, hd_error s = Some c -> p c = false.

Lemma dropWhile_stops (p : N -> bool) (s : jsstring) :
  stops p s -> dropWhile p s = s.
Proof.
  destruct s as [|c r]; intro H; simpl; [reflexivity|].
  now rewrite (H c eq_refl).
Qed.

Lemma takeWhile_app (p : N -> bool) (ds rest : jsstring) :
  Forall (fun c => p c = true) ds -> stops p rest ->
  takeWhile p (ds ++ rest) = ds.
Proof.
  intros Hd Hr. induction Hd as [|c ds Hc _ IH]; simpl.
  - destruct rest as [|c r]; simpl; [reflexivity|]. now rewrite (Hr c eq_refl).
  - now rewrite Hc, IH.
Qed.

Lemma dropWhile_app (p : N -> bool) (ds rest : jsstring) :
  Forall (fun c => p c = true) ds -> stops p rest ->
  dropWhile p (ds ++ rest) = rest.
Proof.
  intros Hd Hr. induction Hd as [|c ds Hc _ IH]; simpl.
  - now apply dropWhile_stops.
  - now rewrite Hc.
Qed.

Lemma dropWhile_idempotent (p : N -> bool) (s : jsstring) :
  dropWhile p (dropWhile p s) = dropWhile p s.
Proof.
  induction s as [|c r IH]; simpl; [reflexivity|].
  destruct (p c) eqn:E; [exact IH|]. simpl. now rewrite E.
Qed.

Lemma dropWhile_keeps_stop (p : N -> bool) (l r : jsstring) (c : N) :
  p c = false -> dropWhile p (l ++ c :: r) = dropWhile p l ++ c :: r.
Proof.
  intro Hc. induction l as [|a l IH]; simpl.
  - now rewrite Hc.
  - destruct (p a); [exact IH|reflexivity].
Qed.

Lemma stops_dropWhile (p : N -> bool) (s : jsstring) : stops p (dropWhile p s).
Proof.
  induction s as [|c r IH]; simpl.
  - intros c H. discriminate.
  - destruct (p c) eqn:E; [exact IH|]. intros c' H. simpl in H.
    injection H as <-. exact E.
Qed.

(** [trim] leaves alone a string that neither starts nor ends with
    white space. *)
Lemma trim_fixed (s : jsstring) :
  stops isWhiteSpace s -> stops isWhiteSpace (rev s) -> trim s = s.
Proof.
  intros H1 H2. unfold trim, trimStart, trimEnd.
  rewrite (dropWhile_stops _ s H1), (dropWhile_stops _ (rev s) H2).
  apply rev_involutive.
Qed.

Lemma trimEnd_stops (s : jsstring) :
  stops isWhiteSpace s -> stops isWhiteSpace (trimEnd s).
Proof.
  destruct s as [|c r]; intro H.
  - intros c Hc. discriminate.
  - pose proof (H c eq_refl) as Hc. unfold trimEnd. simpl rev.
    rewrite (dropWhile_keeps_stop _ _ [] c Hc), rev_app_distr. simpl.
    intros c' Hc'. injection Hc' as <-. exact Hc.
Qed.

(** Trimming twice is trimming once. *)
Lemma trim_idempotent (s : jsstring) : trim (trim s) = trim s.
Proof.
  apply trim_fixed.
  - apply trimEnd_stops, stops_dropWhile.
  - unfold trim, trimEnd. rewrite rev_involutive. apply stops_dropWhile.
Qed.

Lemma digits_no_colon (ds : jsstring) :
  Forall (fun c => isDigit c = true) ds -> ~ In colon ds.
Proof.
  intros H Hin. rewrite Forall_forall in H. apply H in Hin.
  apply isDigit_bounds in Hin. cbv in Hin. destruct Hin as [_ Hin]. now apply Hin.
Qed.

Lemma digits_stop_white (ds rest : jsstring) : digits ds -> stops isWhiteSpace (ds ++ rest).
Proof.
  intros [Hne HF]. destruct ds as [|c r]; [contradiction|].
  intros c' H. injection H as <-. inversion HF; subst. now apply digit_not_white.
Qed.

Lemma stops_rev_app (p : N -> bool) (x b : jsstring) :
  b <> [] -> stops p (rev b) -> stops p (rev (x ++ b)).
Proof.
  intros Hne H. rewrite rev_app_distr.
  destruct (rev b) as [|c r] eqn:E.
  - exfalso. apply Hne. apply (f_equal (@rev N)) in E.
    now rewrite rev_involutive in E.
  - exact H.
Qed.

Lemma digits_rev_stop_white (ds : jsstring) : digits ds -> stops isWhiteSpace (rev ds).
Proof.
  intros [Hne HF] c H. apply digit_not_white.
  rewrite Forall_forall in HF. apply HF. apply in_rev.
  destruct (rev ds); [discriminate|]. injection H as <-. now left.
Qed.

Lemma digits_not_dash (ds rest : jsstring) :
  digits ds -> jsstring_eqb (ds ++ rest) em_dash = false.
Proof.
  intros [Hne HF]. destruct ds as [|c r]; [contradiction|].
  inversion HF as [|? ? Hc _]; subst. apply isDigit_bounds in Hc. simpl.
  replace (c =? 8212)%N with false by (symmetry; apply N.eqb_neq; lia).
  reflexivity.
Qed.

(** [parseInt] on digits followed by something that is not a digit. *)
Lemma parseInt_digits (ds rest : jsstring) :
  digits ds -> stops isDigit rest ->
  parseInt (ds ++ rest) = Int (digitsValue ds).
Proof.
  intros Hd Hr. pose proof Hd as [Hne HF].
  unfold parseInt, trimStart.
  rewrite (dropWhile_stops _ _ (digits_stop_white ds rest Hd)).
  destruct ds as [|c r]; [contradiction|]. simpl app.
  inversion HF as [|? ? Hc _]; subst. apply isDigit_bounds in Hc as Hb.
  replace (c =? minus_sign)%N with false
    by (symmetry; apply N.eqb_neq; unfold minus_sign; lia).
  replace (c =? plus_sign)%N with false
    by (symmetry; apply N.eqb_neq; unfold plus_sign; lia).
  change (c :: r ++ rest) with ((c :: r) ++ rest).
  rewrite (takeWhile_app isDigit (c :: r) rest HF Hr).
  now rewrite Z.mul_1_l.
Qed.

Lemma stops_nil (p : N -> bool) : stops p [].
Proof. intros c H. discriminate. Qed.

Lemma split_app_separator (sep : N) (a r : jsstring) :
  ~ In sep a -> split sep (a ++ sep :: r) = a :: split sep r.
Proof.
  induction a as [|x a IH]; intro H; simpl.
  - now rewrite N.eqb_refl.
  - destruct (x =? sep)%N eqn:E.
    + apply N.eqb_eq in E. subst. exfalso. apply H. now left.
    + rewrite IH; [reflexivity|]. intro Hin. apply H. now right.
Qed.

Lemma length_split (sep : N) (s : jsstring) :
  List.length (split sep s) = S (count_occ N.eq_dec s sep).
Proof.
  induction s as [|c r IH]; simpl; [reflexivity|].
  destruct (N.eq_dec c sep) as [->|Hne].
  - rewrite N.eqb_refl. simpl. now rewrite IH.
  - replace (c =? sep)%N with false by (symmetry; now apply N.eqb_neq).
    destruct (split sep r); simpl in *; [discriminate|exact IH].
Qed.

End ParserGrammar.

Section ParserForms.

Local Open Scope Z_scope.

(** The parser on a string that [trim] leaves alone. *)
Lemma parsed_seconds_trimmed (s : jsstring) :
  s <> [] -> jsstring_eqb s em_dash = false -> trim s = s ->
  parsed_seconds s =
  if test_digits_s s then Some (parseInt s)
  else match map parseInt (split colon s) with
       | [Int m; Int sec] => Some (Int (m * 60 + sec))
       | [Int h; Int m; Int sec] => Some (Int (h * 3600 + m * 60 + sec))
       | _ => None
       end.
Proof.
  intros Hne Hd Ht. unfold parsed_seconds.
  destruct s as [|c r]; [contradiction|]. now rewrite Hd, Ht.
Qed.

Lemma digits_app_nonempty (ds rest : jsstring) : digits ds -> ds ++ rest <> [].
Proof. intros [Hne _] H. apply app_eq_nil in H as [H _]. contradiction. Qed.

Lemma stops_letter_s : stops isDigit [letter_s].
Proof. intros c H. injection H as <-. reflexivity. Qed.

Lemma stops_colon (r : jsstring) : stops isDigit (colon :: r).
Proof. intros c H. injection H as <-. reflexivity. Qed.

Lemma test_digits_s_colon (a r : jsstring) :
  digits a -> r <> [] -> test_digits_s (a ++ colon :: r) = false.
Proof.
  intros [Hne HF] Hr. unfold test_digits_s.
  rewrite (takeWhile_app isDigit a _ HF (stops_colon r)),
    (dropWhile_app isDigit a _ HF (stops_colon r)).
  destruct a; [contradiction|]. destruct r; [contradiction|reflexivity].
Qed.

Lemma takeWhile_all (p : N -> bool) (ds : jsstring) :
  Forall (fun c => p c = true) ds -> takeWhile p ds = ds.
Proof.
  intro H. rewrite <- (app_nil_r ds) at 1. now apply takeWhile_app, stops_nil.
Qed.

Lemma dropWhile_all (p : N -> bool) (ds : jsstring) :
  Forall (fun c => p c = true) ds -> dropWhile p ds = [].
Proof.
  intro H. rewrite <- (app_nil_r ds) at 1. now apply dropWhile_app, stops_nil.
Qed.

Lemma parseInt_digits_only (ds : jsstring) :
  digits ds -> parseInt ds = Int (digitsValue ds).
Proof.
  intro H. rewrite <- (app_nil_r ds) at 1. now apply parseInt_digits, stops_nil.
Qed.

Lemma trim_digits (ds : jsstring) : digits ds -> trim ds = ds.
Proof.
  intro H. apply trim_fixed.
  - rewrite <- (app_nil_r ds). now apply digits_stop_white.
  - now apply digits_rev_stop_white.
Qed.

Lemma digits_alone_not_dash (ds : jsstring) :
  digits ds -> jsstring_eqb ds em_dash = false.
Proof.
  intro H. rewrite <- (app_nil_r ds). now apply digits_not_dash.
Qed.

End ParserForms.

Section ParserValues.

Local Open Scope Z_scope.

Lemma safe_nonneg (z : Z) :
  0 <= z -> z <= MAX_SAFE_INTEGER -> isSafeInteger z = true.
Proof.
  intros H0 H. unfold isSafeInteger. apply Z.leb_le. now rewrite Z.abs_eq.
Qed.

Lemma test_digits_s_digits (ds : jsstring) : digits ds -> test_digits_s ds = true.
Proof.
  intros [Hne HF]. unfold test_digits_s.
  rewrite (takeWhile_all isDigit ds HF), (dropWhile_all isDigit ds HF).
  destruct ds; [contradiction|reflexivity].
Qed.

Lemma test_digits_s_seconds (ds : jsstring) :
  digits ds -> test_digits_s (ds ++ [letter_s]) = true.
Proof.
  intros [Hne HF]. unfold test_digits_s.
  rewrite (takeWhile_app isDigit ds _ HF stops_letter_s),
    (dropWhile_app isDigit ds _ HF stops_letter_s).
  destruct ds; [contradiction|reflexivity].
Qed.

Lemma trim_seconds (ds : jsstring) :
  digits ds -> trim (ds ++ [letter_s]) = ds ++ [letter_s].
Proof.
  intro Hd. apply trim_fixed; [now apply digits_stop_white|].
  rewrite rev_app_distr. intros c H. injection H as <-. reflexivity.
Qed.

Lemma trim_clock (m s : jsstring) :
  digits m -> digits s -> trim (m ++ colon :: s) = m ++ colon :: s.
Proof.
  intros Hm [Hsne HFs]. apply trim_fixed; [now apply digits_stop_white|].
  change (colon :: s) with ([colon] ++ s). rewrite app_assoc.
  apply stops_rev_app; [exact Hsne|now apply digits_rev_stop_white].
Qed.

Lemma trim_long_clock (h m s : jsstring) :
  digits h -> digits m -> digits s ->
  trim (h ++ colon :: m ++ colon :: s) = h ++ colon :: m ++ colon :: s.
Proof.
  intros Hh Hm [Hsne HFs]. apply trim_fixed; [now apply digits_stop_white|].
  replace (h ++ colon :: m ++ colon :: s)
    with ((h ++ colon :: m ++ [colon]) ++ s)
    by (rewrite <- app_assoc; simpl; now rewrite <- app_assoc).
  apply stops_rev_app; [exact Hsne|].
  now apply digits_rev_stop_white.
Qed.

Lemma parts_clock (m s : jsstring) :
  digits m -> digits s ->
  map parseInt (split colon (m ++ colon :: s))
  = [Int (digitsValue m); Int (digitsValue s)].
Proof.
  intros Hm Hs. pose proof Hm as [_ HFm]. pose proof Hs as [_ HFs].
  rewrite split_app_separator by now apply digits_no_colon.
  rewrite split_no_separator by now apply digits_no_colon.
  simpl map. now rewrite (parseInt_digits_only m Hm), (parseInt_digits_only s Hs).
Qed.

Lemma parts_long_clock (h m s : jsstring) :
  digits h -> digits m -> digits s ->
  map parseInt (split colon (h ++ colon :: m ++ colon :: s))
  = [Int (digitsValue h); Int (digitsValue m); Int (digitsValue s)].
Proof.
  intros Hh Hm Hs.
  pose proof Hh as [_ HFh]. pose proof Hm as [_ HFm]. pose proof Hs as [_ HFs].
  rewrite split_app_separator by now apply digits_no_colon.
  rewrite split_app_separator by now apply digits_no_colon.
  rewrite split_no_separator by now apply digits_no_colon.
  simpl map.
  now rewrite (parseInt_digits_only h Hh), (parseInt_digits_only m Hm),
    (parseInt_digits_only s Hs).
Qed.

Lemma test_digits_s_long_clock (h m s : jsstring) :
  digits h -> test_digits_s (h ++ colon :: m ++ colon :: s) = false.
Proof.
  intro Hh. apply test_digits_s_colon; [exact Hh|].
  intro E. apply app_eq_nil in E as [_ E]. discriminate.
Qed.

End ParserValues.

(** X1: a non-empty run of digits whose value is a safe integer (at most
    2^53 - 1), alone or followed by one "s", is read as that many
    seconds; both strings are within the exact range of the parser. *)
Theorem parseKomTime_seconds (ds : jsstring) :
  digits ds -> (digitsValue ds <= MAX_SAFE_INTEGER)%Z ->
  parseKomTime (Val (TStr ds)) = Return (Some (Int (digitsValue ds)))
  /\ parseKomTime (Val (TStr (ds ++ [letter_s])))
     = Return (Some (Int (digitsValue ds)))
  /\ exact_time (Val (TStr ds)) = true
  /\ exact_time (Val (TStr (ds ++ [letter_s]))) = true.
Proof.
  intros Hd Hsafe. pose proof Hd as [Hne HF].
  pose proof (safe_nonneg _ (digitsValue_nonneg ds HF) Hsafe) as Hs.
  rewrite !parseKomTime_string. unfold exact_time, exact_clean.
  rewrite (trim_digits ds Hd), (trim_seconds ds Hd).
  rewrite (test_digits_s_digits ds Hd), (test_digits_s_seconds ds Hd).
  rewrite (parseInt_digits_only ds Hd), (parseInt_digits _ _ Hd stops_letter_s).
  repeat split; try exact Hs.
  - rewrite parsed_seconds_trimmed.
    + now rewrite (test_digits_s_digits ds Hd), (parseInt_digits_only _ Hd).
    + exact Hne.
    + now apply digits_alone_not_dash.
    + now apply trim_digits.
  - rewrite parsed_seconds_trimmed.
    + now rewrite (test_digits_s_seconds ds Hd), (parseInt_digits _ _ Hd stops_letter_s).
    + now apply digits_app_nonempty.
    + now apply digits_not_dash.
    + now apply trim_seconds.
Qed.

(** "45" and "45s". *)
Lemma parseKomTime_seconds_witness :
  parseKomTime (Val (TStr (js "45"))) = Return (Some (Int 45))
  /\ parseKomTime (Val (TStr (js "45s"))) = Return (Some (Int 45))
  /\ exact_time (Val (TStr (js "45"))) = true
  /\ exact_time (Val (TStr (js "45s"))) = true.
Proof.
  apply (parseKomTime_seconds (js "45")).
  - split; [discriminate|]. repeat constructor.
  - discriminate.
Defined.

(** X2: minutes:seconds and hours:minutes:seconds, each component a
    non-empty run of digits, give m*60 + s and h*3600 + m*60 + s as long
    as that count is a safe integer (at most 2^53 - 1); the components
    are not range checked; both strings are within the exact range of
    the parser. *)
Theorem parseKomTime_clock (h m s : jsstring) :
  digits h -> digits m -> digits s ->
  (digitsValue h * 3600 + digitsValue m * 60 + digitsValue s
   <= MAX_SAFE_INTEGER)%Z ->
  parseKomTime (Val (TStr (m ++ colon :: s)))
  = Return (Some (Int (digitsValue m * 60 + digitsValue s)))
  /\ parseKomTime (Val (TStr (h ++ colon :: m ++ colon :: s)))
     = Return (Some (Int (digitsValue h * 3600 + digitsValue m * 60
                          + digitsValue s)))
  /\ exact_time (Val (TStr (m ++ colon :: s))) = true
  /\ exact_time (Val (TStr (h ++ colon :: m ++ colon :: s))) = true.
Proof.
  intros Hh Hm Hs Hsafe. rewrite !parseKomTime_string.
  pose proof Hh as [_ HFh]. pose proof Hm as [Hmne HFm]. pose proof Hs as [Hsne HFs].
  pose proof (digitsValue_nonneg h HFh) as Nh.
  pose proof (digitsValue_nonneg m HFm) as Nm.
  pose proof (digitsValue_nonneg s HFs) as Ns.
  unfold exact_time, exact_clean.
  rewrite (trim_clock m s Hm Hs), (trim_long_clock h m s Hh Hm Hs).
  rewrite (test_digits_s_colon m s Hm Hsne), (test_digits_s_long_clock h m s Hh).
  rewrite (parts_clock m s Hm Hs), (parts_long_clock h m s Hh Hm Hs).
  repeat split.
  - rewrite parsed_seconds_trimmed.
    + now rewrite (test_digits_s_colon m s Hm Hsne), (parts_clock m s Hm Hs).
    + now apply digits_app_nonempty.
    + now apply digits_not_dash.
    + now apply trim_clock.
  - rewrite parsed_seconds_trimmed.
    + now rewrite (test_digits_s_long_clock h m s Hh), (parts_long_clock h m s Hh Hm Hs).
    + now apply digits_app_nonempty.
    + now apply digits_not_dash.
    + now apply trim_long_clock.
  - repeat (apply andb_true_intro; split); apply safe_nonneg; lia.
  - repeat (apply andb_true_intro; split); apply safe_nonneg; lia.
Qed.

(** "5:99" and "1:5:99". *)
Lemma parseKomTime_clock_witness :
  parseKomTime (Val (TStr (js "5:99"))) = Return (Some (Int 399))
  /\ parseKomTime (Val (TStr (js "1:5:99"))) = Return (Some (Int 3999))
  /\ exact_time (Val (TStr (js "5:99"))) = true
  /\ exact_time (Val (TStr (js "1:5:99"))) = true.
Proof.
  apply (parseKomTime_clock (js "1") (js "5") (js "99"));
    try (split; [discriminate|repeat constructor]).
  discriminate.
Defined.

(** What the parser computes from the trimmed string. *)
Definition parse_clean (clean : jsstring) : option jsint :=
  if test_digits_s clean then Some (parseInt clean)
  else match map parseInt (split colon clean) with
       | [Int m; Int sec] => Some (Int (m * 60 + sec))
       | [Int h; Int m; Int sec] => Some (Int (h * 3600 + m * 60 + sec))
       | _ => None
       end.

Section ParserWhiteSpace.

Lemma jsstring_eqb_eq (a b : jsstring) : jsstring_eqb a b = true -> a = b.
Proof.
  revert b. induction a as [|x a IH]; intros [|y b] H; simpl in H;
    try discriminate; [reflexivity|].
  apply andb_prop in H as [H1 H2]. apply N.eqb_eq in H1. subst.
  now rewrite (IH b H2).
Qed.

Lemma parsed_seconds_parse_clean (s : jsstring) :
  parsed_seconds s = parse_clean (trim s).
Proof.
  unfold parsed_seconds. destruct s as [|c r]; [reflexivity|].
  destruct (jsstring_eqb (c :: r) em_dash) eqn:E; [|reflexivity].
  apply jsstring_eqb_eq in E. now rewrite E.
Qed.

End ParserWhiteSpace.

(** X3: white space around the time is ignored: the parser gives the
    same answer on a string and on the string trimmed. *)
Theorem parseKomTime_trim (s : jsstring) :
  parseKomTime (Val (TStr (trim s))) = parseKomTime (Val (TStr s)).
Proof.
  rewrite !parseKomTime_string. f_equal.
  now rewrite !parsed_seconds_parse_clean, trim_idempotent.
Qed.

(** X4: the parser accepts three shapes only: a string is rejected unless,
    once trimmed, it is digits with an optional "s" or holds one or two
    colons. *)
Theorem parseKomTime_shapes (s : jsstring) (r : jsint) :
  parseKomTime (Val (TStr s)) = Return (Some r) ->
  test_digits_s (trim s) = true
  \/ colons (trim s) = 1%nat \/ colons (trim s) = 2%nat.
Proof.
  rewrite parseKomTime_string, parsed_seconds_parse_clean. intro H.
  injection H as H. unfold parse_clean in H.
  destruct (test_digits_s (trim s)); [now left|]. right.
  pose proof (length_split colon (trim s)) as HL. fold (colons (trim s)) in HL.
  destruct (split colon (trim s)) as [|p1 [|p2 [|p3 [|p4 ps]]]]; simpl in H, HL.
  - discriminate.
  - destruct (parseInt p1); discriminate.
  - left. congruence.
  - right. congruence.
  - destruct (parseInt p1); [discriminate|].
    destruct (parseInt p2); [discriminate|].
    destruct (parseInt p3); [discriminate|].
    destruct (parseInt p4); [discriminate|].
    destruct (map parseInt ps); discriminate.
Qed.

(** The shape of "5:30". *)
Lemma parseKomTime_shapes_witness :
  test_digits_s (trim (js "5:30")) = true
  \/ colons (trim (js "5:30")) = 1%nat \/ colons (trim (js "5:30")) = 2%nat.
Proof.
  apply (parseKomTime_shapes (js "5:30") (Int 330)). reflexivity.
Defined.

(* ================================================================== *)
(** ** Further properties of the engine *)
(* ================================================================== *)

Section EngineFacts.

Lemma scored_not_unknown (d e t m : Q) :
  class (difficultyClass (scored d e t m)) <> "unknown"%string.
Proof.
  cbn [scored difficultyClass].
  match goal with |- context [getDifficultyClass ?s] =>
    pose proof (getDifficultyClass_in_table s) as Hin;
    destruct (getDifficultyClass s) as [c l k] end.
  simpl in Hin.
  repeat (destruct Hin as [Hin|Hin]; [injection Hin as <- _ _; discriminate|]).
  contradiction.
Qed.

(** The power on flat or rising ground is positive. *)
Lemma P_total_positive (d e t m : Q) :
  0 < d -> 0 < t -> 0 < m -> 0 <= e ->
  0 < P_total (calculateRequiredW d e t m).
Proof.
  intros Hd Ht Hm He. unfold calculateRequiredW. cbn [P_total].
  assert (Hv : 0 < d / t) by (apply Qlt_shift_div_l; lra).
  assert (Hg : 0 <= e / d) by (apply Qle_shift_div_l; lra).
  set (v := d / t) in *. set (grade := e / d) in *.
  assert (HM : 0 < (m + PHYSICS.bikeMass) * PHYSICS.g * v).
  { unfold PHYSICS.bikeMass, PHYSICS.g. nra. }
  assert (H1 : 0 <= (m + PHYSICS.bikeMass) * PHYSICS.g * v * grade).
  { apply Qmult_le_0_compat; lra. }
  assert (H2 : 0 < (m + PHYSICS.bikeMass) * PHYSICS.g * v * PHYSICS.Crr).
  { apply Qmult_lt_0_compat; [exact HM|reflexivity]. }
  assert (H3 : 0 < (5 # 10) * PHYSICS.rho * PHYSICS.CdA * v * v * v).
  { do 3 (apply Qmult_lt_0_compat; [|exact Hv]). reflexivity. }
  apply Qlt_shift_div_l; [reflexivity|]. lra.
Qed.

Lemma referencePower_below_Pmax (t : Q) : 0 < t -> referencePower t < CP_MODEL.Pmax.
Proof.
  intro Ht. rewrite (referencePower_pos t Ht).
  assert (H : W_APR / (CP_MODEL.Wprime + APR * t) < APR).
  { apply Qlt_shift_div_r; [now apply denominator_pos|].
    unfold W_APR, APR, CP_MODEL.Wprime, CP_MODEL.Pmax, CP_MODEL.CP. lra. }
  unfold APR in H at 2. lra.
Qed.

End EngineFacts.

Section ReferenceRange.

Import PrimFloat.
Set Warnings "-inexact-float".

(** X5: the reference power lies between CP and Pmax, both included,
    for every duration: the divisor of the score is at least 4.77.  On
    the doubles of the code both bounds are reached at positive
    durations: CP at 1e18 s, Pmax at 1e-15 s. *)
Theorem referencePower_range :
  (forall t : Q, CP_MODEL.CP <= referencePower t /\ referencePower t <= CP_MODEL.Pmax)
  /\ (forall t : Q, 0 < referencePower t)
  /\ Binary64.referencePower 1e18 = Binary64.CP_MODEL.CP
  /\ Binary64.referencePower 1e-15 = Binary64.CP_MODEL.Pmax.
Proof.
  split; [|split; [|split]].
  - intro t. destruct (Qlt_le_dec 0 t) as [H|H].
    + split; apply Qlt_le_weak;
        [now apply referencePower_above_CP|now apply referencePower_below_Pmax].
    + rewrite (referencePower_nonpos t H). split; [discriminate|apply Qle_refl].
  - exact referencePower_positive.
  - vm_compute. reflexivity.
  - vm_compute. reflexivity.
Qed.

Set Warnings "inexact-float".

End ReferenceRange.

(** X6: a result is either the invalid sentinel or valid with all three
    numbers present; the class "unknown" is carried by the invalid
    results and by no valid one, and the class of a valid result is the
    class of its score. *)
Theorem calculateSegmentDifficulty_result (o : options) (r : result) :
  calculateSegmentDifficulty o = Return r ->
  (isValid r = false /\ r = defaultResult
   /\ class (difficultyClass r) = "unknown"%string)
  \/ (isValid r = true
      /\ class (difficultyClass r) <> "unknown"%string
      /\ exists P Pkg score,
           komPower r = Some P /\ komPowerWKg r = Some Pkg
           /\ difficultyScore r = Some score
           /\ difficultyClass r = getDifficultyClass score).
Proof.
  intro H.
  destruct (calculateSegmentDifficulty_completion o)
    as [(x & _ & _ & _ & E)|[E|(d & e & m & z & E)]].
  - congruence.
  - left. rewrite E in H. injection H as <-. repeat split.
  - right. decompose [and] E. clear E.
    match goal with E : calculateSegmentDifficulty o = _ |- _ =>
      rewrite E in H end.
    injection H as <-. split; [reflexivity|].
    split; [apply scored_not_unknown|].
    eexists _, _, _. repeat split.
Qed.

(** The end-to-end example is of the second kind. *)
Lemma calculateSegmentDifficulty_result_witness :
  let r := scored 5000 300 (inject_Z 1200) 75 in
  (isValid r = false /\ r = defaultResult
   /\ class (difficultyClass r) = "unknown"%string)
  \/ (isValid r = true
      /\ class (difficultyClass r) <> "unknown"%string
      /\ exists P Pkg score,
           komPower r = Some P /\ komPowerWKg r = Some Pkg
           /\ difficultyScore r = Some score
           /\ difficultyClass r = getDifficultyClass score).
Proof.
  apply (calculateSegmentDifficulty_result example_options). exact example_result.
Defined.

(** X7: on flat or rising ground (elevation >= 0) a scoreable segment of
    ordinary magnitude, with a duration within the safe integers, has
    positive power, positive power per kilogram and a positive score. *)
Theorem uphill_score_positive (d e m : Q) (k : nullable timeval) (z : Z) :
  ordinary d e m -> 0 <= e ->
  exact_time k = true ->
  parseKomTime k = Return (Some (Int z)) -> (0 < z)%Z ->
  exists P Pkg score c,
    calculateSegmentDifficulty (mkOptions (Val d) (Val e) k (Val m))
    = Return (mkResult (Some P) (Some Pkg) (Some score) c true)
    /\ 0 < P /\ 0 < Pkg /\ 0 < score.
Proof.
  intros (Hd1 & _ & _ & _ & Hm1 & _) He _ Hk Hz.
  assert (Hd : 0 < d) by lra. assert (Hm : 0 < m) by lra.
  eexists _, _, _, _. split.
  - apply (calculateSegmentDifficulty_scored d m k z); assumption.
  - pose proof (P_total_positive d e (inject_Z z) m Hd (inject_Z_pos z Hz) Hm He) as HP.
    assert (HPkg : 0 < P_totalWkg (calculateRequiredW d e (inject_Z z) m)).
    { unfold calculateRequiredW in *. cbn [P_total P_totalWkg] in *.
      apply Qlt_shift_div_l; lra. }
    repeat split; try assumption.
    apply Qmult_lt_0_compat; [|reflexivity].
    apply Qlt_shift_div_l; [apply referencePower_positive|lra].
Qed.

(** A flat segment: 5000 m, no elevation, "20:00", 75 kg. *)
Lemma uphill_score_positive_witness :
  exists P Pkg score c,
    calculateSegmentDifficulty
      (mkOptions (Val 5000) (Val 0) (Val (TStr (js "20:00"))) (Val 75))
    = Return (mkResult (Some P) (Some Pkg) (Some score) c true)
    /\ 0 < P /\ 0 < Pkg /\ 0 < score.
Proof.
  apply (uphill_score_positive 5000 0 75 (Val (TStr (js "20:00"))) 1200);
    try reflexivity; try (unfold ordinary; lra); discriminate.
Defined.

(** X8: a segment whose details are not loaded, or carry no KOM time, gets
    the invalid sentinel, whatever its other fields and the rider mass;
    the wrapper does not throw on it. *)
Theorem getSegmentDifficulty_without_time (seg : segment) (riderMass : nullable Q) :
  eq_null (chain (chain (details seg) Details.xoms) Xoms.kom) = true ->
  getSegmentDifficulty seg riderMass = Return defaultResult.
Proof.
  intro H. unfold getSegmentDifficulty. cbv zeta.
  apply fails_validation_default. unfold fails_validation, time_fails_as_stated.
  cbn [komTime].
  destruct (chain (chain (details seg) Details.xoms) Xoms.kom);
    try discriminate; tauto.
Qed.

(** A segment as the loader first stores it: details null. *)
Lemma getSegmentDifficulty_without_time_witness :
  getSegmentDifficulty
    (mkSegment (Val (Data.mk (Val 5000) (Val 300))) Null) (Val 75)
  = Return defaultResult.
Proof.
  apply getSegmentDifficulty_without_time. reflexivity.
Defined.

(* ================================================================== *)
(** ** The segment panel (src/components/SegmentPanel.jsx) *)
(* ================================================================== *)

Module SegmentPanel.

(** An element of [visible]: [{ id, seg, difficulty }]. *)
Module Entry.
Record t : Type := mk {
  id : jsstring;
  seg : segment;
  difficulty : result
}.
End Entry.

Definition RIDER_MASS : Q := 75.

(** The test of the filter callback on a start point, for bounds
    [[swLat, swLng, neLat, neLng]]; without bounds every segment is kept. *)
Definition withinBounds (mapBounds : option (Q * Q * Q * Q)) (lat lng : Q) : bool :=
  match mapBounds with
  | None => true
  | Some (swLat, swLng, neLat, neLng) =>
      Qle_bool swLat lat && Qle_bool lat neLat
      && Qle_bool swLng lng && Qle_bool lng neLng
  end.

(** [score || 0] *)
Definition score_or_zero (r : result) : Q :=
  match difficultyScore r with
  | Some q => if Qeq_bool q 0 then 0 else q
  | None => 0
  end.

(** The comparator given to [visible.sort]. *)
Definition compareEntries (a b : Entry.t) : Q :=
  if negb (Bool.eqb (isValid (Entry.difficulty a)) (isValid (Entry.difficulty b)))
  then (if isValid (Entry.difficulty a) then -1 # 1 else 1)
  else score_or_zero (Entry.difficulty a) - score_or_zero (Entry.difficulty b).

(** The callback of [map]. *)
Definition toEntry (p : jsstring * segment) : completion Entry.t :=
  difficulty <- getSegmentDifficulty (snd p) (Val RIDER_MASS) ;;
  Return (Entry.mk (fst p) (snd p) difficulty).

(** [Array.prototype.map] with a callback that may throw. *)
Fixpoint mapM {A B} (f : A -> completion B) (l : list A) : completion (list B) :=
  match l with
  | [] => Return []
  | x :: rest => y <- f x ;; ys <- mapM f rest ;; Return (y :: ys)
  end.

(** [Array.prototype.sort] with a comparator: the sort is stable, and with
    a consistent comparator its result is the sorted arrangement, which
    inserting the elements one after the other computes. *)
Fixpoint insert {A} (cmp : A -> A -> Q) (x : A) (l : list A) : list A :=
  match l with
  | [] => [x]
  | y :: rest =>
      if Qle_bool 0 (cmp x y) then y :: insert cmp x rest
      else x :: y :: rest
  end.

Definition sort {A} (cmp : A -> A -> Q) (l : list A) : list A :=
  fold_left (fun acc x => insert cmp x acc) l [].

(** The entries shown, from the entries the filter kept. *)
Definition visible (kept : list (jsstring * segment)) : completion (list Entry.t) :=
  entries <- mapM toEntry kept ;;
  Return (sort compareEntries entries).

End SegmentPanel.

Import SegmentPanel.

(** [a] is shown no later than [b]. *)
Definition before (a b : Entry.t) : Prop := compareEntries a b <= 0.

Definition valid (e : Entry.t) : bool := isValid (Entry.difficulty e).

Section PanelOrder.

Lemma score_or_zero_value (r : result) :
  score_or_zero r ==
  match difficultyScore r with Some q => q | None => 0 end.
Proof.
  unfold score_or_zero. destruct (difficultyScore r) as [q|]; [|reflexivity].
  destruct (Qeq_bool q 0) eqn:E; [|reflexivity].
  apply Qeq_bool_iff in E. now rewrite E.
Qed.

Lemma before_iff (a b : Entry.t) :
  before a b <->
  (valid a = true /\ valid b = false)
  \/ (valid a = valid b
      /\ score_or_zero (Entry.difficulty a) <= score_or_zero (Entry.difficulty b)).
Proof.
  unfold before, compareEntries, valid.
  destruct (isValid (Entry.difficulty a)), (isValid (Entry.difficulty b)); simpl.
  - split; [intro H; right; split; [reflexivity|lra]|].
    intros [[_ H]|[_ H]]; [discriminate|lra].
  - split; [tauto|]. intros _. discriminate.
  - split; [intro H; exfalso; apply (Qlt_not_le _ _ (eq_refl : 0 < 1) H)|].
    intros [[H _]|[H _]]; discriminate.
  - split; [intro H; right; split; [reflexivity|lra]|].
    intros [[H _]|[_ H]]; [discriminate|lra].
Qed.

Lemma before_refl (a : Entry.t) : before a a.
Proof. apply before_iff. right. split; [reflexivity|apply Qle_refl]. Qed.

Lemma before_trans (a b c : Entry.t) : before a b -> before b c -> before a c.
Proof.
  rewrite !before_iff.
  intros [[Ha Hb]|[Hab Hs]] [[Hb' Hc]|[Hbc Hs']].
  - congruence.
  - left. split; congruence.
  - left. split; congruence.
  - right. split; [congruence|lra].
Qed.

Lemma before_total (a b : Entry.t) : before a b \/ before b a.
Proof.
  rewrite !before_iff.
  destruct (valid a) eqn:Ha, (valid b) eqn:Hb; try tauto;
    destruct (Qlt_le_dec (score_or_zero (Entry.difficulty a))
                         (score_or_zero (Entry.difficulty b)));
    [left|right|left|right]; right; split; try reflexivity; lra.
Qed.

(** The sign of the comparator flips with its arguments. *)
Lemma compareEntries_antisym (a b : Entry.t) :
  compareEntries a b == - compareEntries b a.
Proof.
  unfold compareEntries.
  destruct (isValid (Entry.difficulty a)), (isValid (Entry.difficulty b));
    simpl; try reflexivity; ring.
Qed.

Lemma insert_perm {A} (cmp : A -> A -> Q) (x : A) (l : list A) :
  Permutation (insert cmp x l) (x :: l).
Proof.
  induction l as [|y l IH]; simpl; [reflexivity|].
  destruct (Qle_bool 0 (cmp x y)); [|reflexivity].
  rewrite IH. apply perm_swap.
Qed.

Lemma sort_perm {A} (cmp : A -> A -> Q) (l : list A) : Permutation (sort cmp l) l.
Proof.
  unfold sort.
  assert (H : forall acc, Permutation (fold_left (fun acc x => insert cmp x acc) l acc)
                                      (acc ++ l)).
  { induction l as [|x l IH]; intro acc; simpl.
    - now rewrite app_nil_r.
    - rewrite IH, insert_perm. apply Permutation_middle. }
  apply (H []).
Qed.

Lemma insert_sorted (x : Entry.t) (l : list Entry.t) :
  StronglySorted before l -> StronglySorted before (insert compareEntries x l).
Proof.
  induction 1 as [|y l Hs IH Hy]; simpl.
  - repeat constructor.
  - destruct (Qle_bool 0 (compareEntries x y)) eqn:E.
    + apply Qle_bool_iff in E.
      assert (Hyx : before y x).
      { unfold before. rewrite compareEntries_antisym. lra. }
      constructor; [exact IH|].
      apply (Permutation_Forall (x := x :: l));
        [symmetry; apply insert_perm|now constructor].
    + apply Qle_bool_false_iff in E.
      assert (Hxy : before x y) by (unfold before; lra).
      constructor; [now constructor|].
      constructor; [exact Hxy|].
      eapply Forall_impl; [|exact Hy]. intros z Hz. now apply (before_trans x y z).
Qed.

Lemma sort_sorted (l : list Entry.t) : StronglySorted before (sort compareEntries l).
Proof.
  unfold sort.
  assert (H : forall acc, StronglySorted before acc ->
            StronglySorted before
              (fold_left (fun acc x => insert compareEntries x acc) l acc)).
  { induction l as [|x l IH]; intros acc Hacc; simpl; [exact Hacc|].
    apply IH. now apply insert_sorted. }
  apply H. constructor.
Qed.

(** A list in panel order is its valid entries by ascending score,
    followed by its invalid entries. *)
Lemma sorted_valid_first (l : list Entry.t) :
  StronglySorted before l ->
  exists shown hidden,
    l = shown ++ hidden
    /\ Forall (fun e => valid e = true) shown
    /\ Forall (fun e => valid e = false) hidden
    /\ StronglySorted
         (fun a b => score_or_zero (Entry.difficulty a)
                     <= score_or_zero (Entry.difficulty b)) shown.
Proof.
  induction 1 as [|a l Hs IH Ha].
  - exists [], []. repeat split; constructor.
  - destruct IH as (shown & hidden & -> & Hv & Hi & Hsc).
    destruct (valid a) eqn:Va.
    + exists (a :: shown), hidden. repeat split; try assumption.
      * now constructor.
      * constructor; [exact Hsc|].
        apply Forall_app in Ha as [Ha _].
        rewrite Forall_forall in *. intros b Hb.
        specialize (Ha b Hb). specialize (Hv b Hb).
        apply before_iff in Ha as [[_ Ha]|[_ Ha]]; [congruence|exact Ha].
    + exists [], (a :: shown ++ hidden). repeat split; try constructor; try assumption.
      rewrite Forall_forall in *. intros b Hb. specialize (Ha b Hb).
      apply before_iff in Ha as [[Ha _]|[Ha _]]; congruence.
Qed.

Lemma mapM_toEntry (kept : list (jsstring * segment)) (es : list Entry.t) :
  mapM toEntry kept = Return es ->
  map (fun e => (Entry.id e, Entry.seg e)) es = kept
  /\ Forall (fun e => getSegmentDifficulty (Entry.seg e) (Val RIDER_MASS)
                      = Return (Entry.difficulty e)) es.
Proof.
  revert es. induction kept as [|[k s] kept IH]; intros es H; simpl in H.
  - injection H as <-. split; constructor.
  - unfold toEntry at 1 in H. cbn [fst snd] in H.
    destruct (getSegmentDifficulty s (Val RIDER_MASS)) as [d|] eqn:E;
      [|discriminate].
    cbn [bind] in H. destruct (mapM toEntry kept) as [ys|]; [|discriminate].
    cbn [bind] in H. injection H as <-.
    destruct (IH ys eq_refl) as [IH1 IH2]. split.
    + simpl. now rewrite IH1.
    + constructor; assumption.
Qed.

End PanelOrder.

(** X9: the panel's comparator is consistent, as [sort] needs it: an
    entry compares equal to itself, swapping the arguments flips the
    sign, "not after" is transitive; a valid entry comes before an
    invalid one, and two entries of the same validity are ordered by
    ascending score. *)
Theorem compareEntries_consistent :
  (forall a, compareEntries a a == 0)
  /\ (forall a b, compareEntries a b == - compareEntries b a)
  /\ (forall a b c, compareEntries a b <= 0 -> compareEntries b c <= 0 ->
                    compareEntries a c <= 0)
  /\ (forall a b, valid a = true -> valid b = false ->
                  compareEntries a b < 0 /\ 0 < compareEntries b a)
  /\ (forall a b, valid a = valid b ->
        (compareEntries a b < 0
         <-> score_or_zero (Entry.difficulty a) < score_or_zero (Entry.difficulty b))).
Proof.
  split; [|split; [|split; [|split]]].
  - intro a. unfold compareEntries. rewrite Bool.eqb_reflx. simpl. ring.
  - exact compareEntries_antisym.
  - exact before_trans.
  - intros a b Ha Hb. unfold compareEntries, valid in *. rewrite Ha, Hb. simpl.
    split; reflexivity.
  - intros a b H. unfold compareEntries, valid in *. rewrite H, Bool.eqb_reflx.
    simpl. split; intro; lra.
Qed.

(** Two segments as the panel can hold them: one whose details are not
    loaded yet, one with details and the KOM time "20:00". *)
Definition panel_example : list (jsstring * segment) :=
  [ (js "7", mkSegment (Val (Data.mk (Val 5000) (Val 300))) Null);
    (js "9", segment_without_elevation) ].

(** X10: the list the panel shows holds the kept segments, each with the
    difficulty the wrapper computes for a 75 kg rider, rearranged so
    that the valid entries come first, by ascending score, and the
    invalid ones last. *)
Theorem visible_order (kept : list (jsstring * segment)) (shown : list Entry.t) :
  visible kept = Return shown ->
  Permutation (map (fun e => (Entry.id e, Entry.seg e)) shown) kept
  /\ Forall (fun e => getSegmentDifficulty (Entry.seg e) (Val 75)
                      = Return (Entry.difficulty e)) shown
  /\ exists scored_entries unscored_entries,
       shown = scored_entries ++ unscored_entries
       /\ Forall (fun e => isValid (Entry.difficulty e) = true) scored_entries
       /\ Forall (fun e => isValid (Entry.difficulty e) = false) unscored_entries
       /\ StronglySorted
            (fun a b => score_or_zero (Entry.difficulty a)
                        <= score_or_zero (Entry.difficulty b)) scored_entries.
Proof.
  unfold visible. intro H.
  destruct (mapM toEntry kept) as [es|] eqn:E; [|discriminate].
  cbn [bind] in H. injection H as <-.
  destruct (mapM_toEntry kept es E) as [Hk Hd].
  pose proof (sort_perm compareEntries es) as Hp.
  split; [|split].
  - rewrite <- Hk. now apply Permutation_map.
  - apply (Permutation_Forall (x := es)); [now symmetry|exact Hd].
  - apply sorted_valid_first, sort_sorted.
Qed.

(** On the example the loaded segment is shown first. *)
Lemma visible_order_witness :
  exists shown,
    visible panel_example = Return shown
    /\ map Entry.id shown = [js "9"; js "7"]
    /\ Permutation (map (fun e => (Entry.id e, Entry.seg e)) shown) panel_example.
Proof.
  eexists. split; [vm_compute; reflexivity|]. split; [reflexivity|].
  refine (proj1 (visible_order panel_example _ _)). vm_compute. reflexivity.
Defined.

(* ================================================================== *)
(** ** Splitting the map bounds (hooks/useSegments, [splitBounds]) *)
(* ================================================================== *)

Module UseSegments.

(** [splitBounds]: the bounds [[swLat, swLng, neLat, neLng]] cut into
    the SW, SE, NW and NE quadrants. *)
Definition splitBounds (bounds : Q * Q * Q * Q) : list (Q * Q * Q * Q) :=
  let '(swLat, swLng, neLat, neLng) := bounds in
  let midLat := (swLat + neLat) / 2 in
  let midLng := (swLng + neLng) / 2 in
  [ (swLat, swLng, midLat, midLng);
    (swLat, midLng, midLat, neLng);
    (midLat, swLng, neLat, midLng);
    (midLat, midLng, neLat, neLng) ].

End UseSegments.

Import UseSegments.

Section Quadrants.

Lemma withinBounds_iff (swLat swLng neLat neLng lat lng : Q) :
  withinBounds (Some (swLat, swLng, neLat, neLng)) lat lng = true
  <-> swLat <= lat /\ lat <= neLat /\ swLng <= lng /\ lng <= neLng.
Proof.
  unfold withinBounds. rewrite !andb_true_iff, !Qle_bool_iff. tauto.
Qed.

Lemma half_sum (a b : Q) : (a + b) / 2 == (1 # 2) * a + (1 # 2) * b.
Proof. field. Qed.

End Quadrants.

(** X11: the four quadrants cover the bounds and nothing else: a point
    lies within the bounds exactly when it lies within one of the
    quadrants (borders included, as the panel tests them). *)
Theorem splitBounds_cover (bounds : Q * Q * Q * Q) (lat lng : Q) :
  withinBounds (Some bounds) lat lng = true
  <-> exists q, In q (splitBounds bounds) /\ withinBounds (Some q) lat lng = true.
Proof.
  destruct bounds as [[[swLat swLng] neLat] neLng]. unfold splitBounds.
  pose proof (half_sum swLat neLat) as Elat.
  pose proof (half_sum swLng neLng) as Elng.
  set (midLat := (swLat + neLat) / 2) in *.
  set (midLng := (swLng + neLng) / 2) in *.
  rewrite withinBounds_iff. split.
  - intros (H1 & H2 & H3 & H4).
    destruct (Qlt_le_dec midLat lat) as [Hlat|Hlat],
             (Qlt_le_dec midLng lng) as [Hlng|Hlng].
    + exists (midLat, midLng, neLat, neLng). split; [simpl; tauto|].
      apply withinBounds_iff. repeat split; lra.
    + exists (midLat, swLng, neLat, midLng). split; [simpl; tauto|].
      apply withinBounds_iff. repeat split; lra.
    + exists (swLat, midLng, midLat, neLng). split; [simpl; tauto|].
      apply withinBounds_iff. repeat split; lra.
    + exists (swLat, swLng, midLat, midLng). split; [simpl; tauto|].
      apply withinBounds_iff. repeat split; lra.
  - intros (q & Hq & Hin). simpl in Hq.
    destruct Hq as [<-|[<-|[<-|[<-|[]]]]];
      apply withinBounds_iff in Hin; repeat split; lra.
Qed.

(** X12: the quadrants overlap on their borders only: a point within two
    different quadrants lies on the middle parallel or on the middle
    meridian. *)
Theorem splitBounds_overlap (swLat swLng neLat neLng lat lng : Q) (i j : nat)
  (q1 q2 : Q * Q * Q * Q) :
  nth_error (splitBounds (swLat, swLng, neLat, neLng)) i = Some q1 ->
  nth_error (splitBounds (swLat, swLng, neLat, neLng)) j = Some q2 ->
  i <> j ->
  withinBounds (Some q1) lat lng = true ->
  withinBounds (Some q2) lat lng = true ->
  lat == (swLat + neLat) / 2 \/ lng == (swLng + neLng) / 2.
Proof.
  unfold splitBounds.
  set (midLat := (swLat + neLat) / 2).
  set (midLng := (swLng + neLng) / 2).
  intros H1 H2 Hij W1 W2.
  destruct i as [|[|[|[|i]]]]; simpl in H1; try (destruct i; discriminate);
    injection H1 as <-;
    (destruct j as [|[|[|[|j]]]]; simpl in H2; try (destruct j; discriminate);
     try contradiction; injection H2 as <-);
    apply withinBounds_iff in W1; apply withinBounds_iff in W2;
    destruct (Qeq_dec lat midLat) as [E|E]; try (now left);
    right; lra.
Qed.

(** The centre of the bounds (0,0)-(2,2) lies in the SW and in the NE
    quadrant. *)
Lemma splitBounds_overlap_witness :
  1 == (0 + 2) / 2 \/ 1 == (0 + 2) / 2.
Proof.
  apply (splitBounds_overlap 0 0 2 2 1 1 0 3 (0, 0, (0 + 2) / 2, (0 + 2) / 2)
           ((0 + 2) / 2, (0 + 2) / 2, 2, 2));
    try reflexivity. discriminate.
Defined.

(* ================================================================== *)
(** ** Polyline decoding ([decodePolyline]) *)
(* ================================================================== *)

Module Polyline.

Local Open Scope Z_scope.

(** ToInt32: the operands and results of the bit operators. *)
Definition to_int32 (z : Z) : Z := (z + 2 ^ 31) mod 2 ^ 32 - 2 ^ 31.

(** [a & b], [a | b], [a << n], [a >> n], [~a] on numbers. *)
Definition and32 (a b : Z) : Z := Z.land (to_int32 a) (to_int32 b).
Definition or32 (a b : Z) : Z := Z.lor (to_int32 a) (to_int32 b).
Definition shl32 (a n : Z) : Z := to_int32 (Z.shiftl (to_int32 a) (n mod 32)).
Definition sar32 (a n : Z) : Z := Z.shiftr (to_int32 a) (n mod 32).
Definition not32 (a : Z) : Z := Z.lnot (to_int32 a).

(** One do-while loop: the chunks of one number, read from the string
    at [index] on.  Past the end [charCodeAt] is NaN: the chunk counts as
    0 and ends the loop.  Returns [result] and the string that is left. *)
Fixpoint decodeChunks (encoded : jsstring) (shift result : Z) : Z * jsstring :=
  match encoded with
  | [] => (or32 result (shl32 0 shift), [])
  | c :: rest =>
      let b := Z.of_N c - 63 in
      let result := or32 result (shl32 (and32 b 31) shift) in
      let shift := shift + 5 in
      if 32 <=? b then decodeChunks rest shift result else (result, rest)
  end.

(** [result & 1 ? ~(result >> 1) : result >> 1] *)
Definition delta (result : Z) : Z :=
  if and32 result 1 =? 0 then sar32 result 1 else not32 (sar32 result 1).

(** The while loop: one point per round; [fuel] bounds the rounds. *)
Fixpoint decodeLoop (fuel : nat) (encoded : jsstring) (lat lng : Z)
  (coords : list (Q * Q)) : list (Q * Q) :=
  match fuel, encoded with
  | O, _ => coords
  | _, [] => coords
  | S fuel', _ :: _ =>
      let (result1, rest1) := decodeChunks encoded 0 0 in
      let lat := lat + delta result1 in
      let (result2, rest2) := decodeChunks rest1 0 0 in
      let lng := lng + delta result2 in
      decodeLoop fuel' rest2 lat lng
        (coords ++ [((inject_Z lat / 100000)%Q, (inject_Z lng / 100000)%Q)])
  end.

(** [decodePolyline]: every round consumes a code unit, so as many
    rounds as the string has units are enough ([decodeLoop_fuel]). *)
Definition decodePolyline (encoded : jsstring) : list (Q * Q) :=
  decodeLoop (List.length encoded) encoded 0 0 [].

End Polyline.

Import Polyline.

(** The format the decoder reads, in arithmetic: a number is doubled
    (and complemented when negative), cut into 5-bit chunks from the low
    end, every chunk but the last marked with 32, and 63 added. *)
Fixpoint encodeUnsigned (more : nat) (n : Z) : jsstring :=
  match more with
  | O => [Z.to_N (n + 63)]
  | S more' =>
      if (n <? 32)%Z then [Z.to_N (n + 63)]
      else Z.to_N (32 + n mod 32 + 63) :: encodeUnsigned more' (n / 32)
  end.

Definition zigzag (v : Z) : Z := (if v <? 0 then - 2 * v - 1 else 2 * v)%Z.

Definition encodeNumber (v : Z) : jsstring := encodeUnsigned 6 (zigzag v).

(** Points in units of 1e-5 degree, coded as steps from the point
    before, the first one from (0, 0). *)
Fixpoint encodeFrom (lat lng : Z) (points : list (Z * Z)) : jsstring :=
  match points with
  | [] => []
  | (lat', lng') :: rest =>
      encodeNumber (lat' - lat) ++ encodeNumber (lng' - lng)
      ++ encodeFrom lat' lng' rest
  end.

Definition encodePolyline (points : list (Z * Z)) : jsstring :=
  encodeFrom 0 0 points.

(** Every step of the path fits the 30 bits of six chunks. *)
Fixpoint small_steps (lat lng : Z) (points : list (Z * Z)) : Prop :=
  match points with
  | [] => True
  | (lat', lng') :: rest =>
      (- 2 ^ 29 <= lat' - lat < 2 ^ 29)%Z /\ (- 2 ^ 29 <= lng' - lng < 2 ^ 29)%Z
      /\ small_steps lat' lng' rest
  end.

Definition degrees (p : Z * Z) : Q * Q :=
  (inject_Z (fst p) / 100000, inject_Z (snd p) / 100000).

Section PolylineBits.

Local Open Scope Z_scope.

Lemma to_int32_small (z : Z) : - 2 ^ 31 <= z < 2 ^ 31 -> to_int32 z = z.
Proof.
  intro H. unfold to_int32. rewrite Z.mod_small; lia.
Qed.

Lemma to_int32_range (z : Z) : - 2 ^ 31 <= to_int32 z < 2 ^ 31.
Proof.
  unfold to_int32.
  pose proof (Z.mod_pos_bound (z + 2 ^ 31) (2 ^ 32) ltac:(lia)). lia.
Qed.

Lemma to_int32_idempotent (z : Z) : to_int32 (to_int32 z) = to_int32 z.
Proof. apply to_int32_small, to_int32_range. Qed.

Lemma land_low_shifted (a m s : Z) :
  0 <= s -> 0 <= a < 2 ^ s -> Z.land a (Z.shiftl m s) = 0.
Proof.
  intros Hs Ha. apply Z.bits_inj'. intros i Hi.
  rewrite Z.land_spec, Z.bits_0.
  destruct (Z.lt_ge_cases i s) as [H|H].
  - rewrite (Z.shiftl_spec_low m s i H). apply andb_false_r.
  - rewrite <- (Z.mod_small a (2 ^ s)) by lia.
    rewrite Z.mod_pow2_bits_high by lia. reflexivity.
Qed.

Lemma lor_low_shifted (a m s : Z) :
  0 <= s -> 0 <= a < 2 ^ s -> Z.lor a (Z.shiftl m s) = a + m * 2 ^ s.
Proof.
  intros Hs Ha.
  rewrite <- Z.lxor_lor, <- Z.add_nocarry_lxor by now apply land_low_shifted.
  now rewrite Z.shiftl_mul_pow2.
Qed.

Lemma land_31 (b : Z) : Z.land b 31 = b mod 32.
Proof. change 31 with (Z.ones 5). now rewrite Z.land_ones. Qed.

Lemma land_1 (b : Z) : Z.land b 1 = b mod 2.
Proof. change 1 with (Z.ones 1). now rewrite Z.land_ones. Qed.

Lemma delta_zigzag (v : Z) : - 2 ^ 29 <= v < 2 ^ 29 -> delta (zigzag v) = v.
Proof.
  intro H. unfold delta, zigzag, and32, sar32, not32.
  change (1 mod 32) with 1. rewrite (to_int32_small 1) by lia.
  rewrite land_1, Z.shiftr_div_pow2 by lia. change (2 ^ 1) with 2.
  destruct (v <? 0) eqn:E.
  - apply Z.ltb_lt in E. rewrite (to_int32_small (- 2 * v - 1)) by lia.
    replace (- 2 * v - 1) with (1 + (- v - 1) * 2) by lia.
    rewrite Z.mod_add, Z.div_add by lia.
    change (1 mod 2) with 1. change (1 / 2) with 0. change (1 =? 0) with false.
    cbv iota. rewrite to_int32_small by lia. unfold Z.lnot. lia.
  - apply Z.ltb_ge in E. rewrite (to_int32_small (2 * v)) by lia.
    replace (2 * v) with (0 + v * 2) by lia.
    rewrite Z.mod_add, Z.div_add by lia.
    change (0 mod 2) with 0. change (0 / 2) with 0. change (0 =? 0) with true.
    cbv iota. lia.
Qed.

End PolylineBits.

Section PolylineRoundTrip.

Local Open Scope Z_scope.

(** One chunk added to [result]. *)
Lemma chunk_step (b m shift result : Z) :
  - 2 ^ 31 <= b < 2 ^ 31 -> b mod 32 = m ->
  0 <= shift < 30 -> 0 <= result < 2 ^ shift ->
  result + m * 2 ^ shift < 2 ^ 30 ->
  or32 result (shl32 (and32 b 31) shift) = result + m * 2 ^ shift.
Proof.
  intros Hb Hm Hs Hr Hlt.
  assert (Hm32 : 0 <= m < 32) by (subst m; apply Z.mod_pos_bound; lia).
  assert (HP : 0 < 2 ^ shift) by (apply Z.pow_pos_nonneg; lia).
  unfold or32, shl32, and32.
  rewrite (to_int32_small b) by exact Hb.
  rewrite (to_int32_small 31) by lia.
  rewrite land_31, Hm.
  rewrite (to_int32_small m) by lia.
  rewrite (Z.mod_small shift 32) by lia.
  rewrite to_int32_idempotent.
  assert (Hsh : Z.shiftl m shift = m * 2 ^ shift) by (apply Z.shiftl_mul_pow2; lia).
  rewrite (to_int32_small (Z.shiftl m shift)) by (rewrite Hsh; nia).
  rewrite (to_int32_small result) by lia.
  apply lor_low_shifted; lia.
Qed.

Lemma encodeUnsigned_last (more : nat) (n : Z) :
  n < 32 -> encodeUnsigned more n = [Z.to_N (n + 63)].
Proof.
  intro H. destruct more; cbn [encodeUnsigned]; [reflexivity|].
  now replace (n <? 32) with true by (symmetry; apply Z.ltb_lt; lia).
Qed.

Lemma encodeUnsigned_more (more : nat) (n : Z) :
  32 <= n ->
  encodeUnsigned (S more) n
  = Z.to_N (32 + n mod 32 + 63) :: encodeUnsigned more (n / 32).
Proof.
  intro H. cbn [encodeUnsigned].
  now replace (n <? 32) with false by (symmetry; apply Z.ltb_ge; lia).
Qed.

Lemma decodeChunks_last (n : Z) (rest : jsstring) (shift result : Z) :
  0 <= n < 32 -> 0 <= shift < 30 -> 0 <= result < 2 ^ shift ->
  result + n * 2 ^ shift < 2 ^ 30 ->
  decodeChunks ([Z.to_N (n + 63)] ++ rest) shift result
  = (result + n * 2 ^ shift, rest).
Proof.
  intros Hn Hs Hr Hlt. cbn [app decodeChunks].
  rewrite Z2N.id by lia. replace (n + 63 - 63) with n by lia.
  rewrite (chunk_step n n) by (try rewrite Z.mod_small; lia).
  now replace (32 <=? n) with false by (symmetry; apply Z.leb_gt; lia).
Qed.

Lemma decodeChunks_encodeUnsigned (more : nat) (n : Z) (rest : jsstring)
  (shift result : Z) :
  0 <= shift -> 0 <= result < 2 ^ shift -> 0 <= n ->
  shift = 0 \/ 1 <= n ->
  result + n * 2 ^ shift < 2 ^ 30 ->
  n < 32 ^ (Z.of_nat more + 1) ->
  decodeChunks (encodeUnsigned more n ++ rest) shift result
  = (result + n * 2 ^ shift, rest).
Proof.
  revert n shift result.
  induction more as [|more IH]; intros n shift result Hs Hr Hn H1 Hlt Hfuel.
  all: assert (HP : 0 < 2 ^ shift) by (apply Z.pow_pos_nonneg; lia).
  all: assert (Hs30 : shift < 30).
  1,3: destruct H1 as [->|H1]; [lia|];
       apply (Z.pow_lt_mono_r_iff 2); [lia|lia|nia].
  - change (32 ^ (Z.of_nat 0 + 1)) with 32 in Hfuel.
    rewrite encodeUnsigned_last by lia. apply decodeChunks_last; lia.
  - destruct (Z.lt_ge_cases n 32) as [E|E].
    + rewrite encodeUnsigned_last by lia. apply decodeChunks_last; lia.
    + rewrite encodeUnsigned_more by lia. cbn [app decodeChunks].
      pose proof (Z.mod_pos_bound n 32 ltac:(lia)) as Hm.
      pose proof (Z.div_mod n 32 ltac:(lia)) as Hdm.
      rewrite Z2N.id by lia.
      replace (32 + n mod 32 + 63 - 63) with (32 + n mod 32) by lia.
      assert (Hb : (32 + n mod 32) mod 32 = n mod 32).
      { rewrite Z.add_mod, Z.mod_same, Z.add_0_l, !Z.mod_mod by lia. reflexivity. }
      rewrite (chunk_step (32 + n mod 32) (n mod 32)) by (try assumption; nia).
      replace (32 <=? 32 + n mod 32) with true by (symmetry; apply Z.leb_le; lia).
      assert (Hpow : 2 ^ (shift + 5) = 2 ^ shift * 32)
        by (rewrite Z.pow_add_r by lia; reflexivity).
      rewrite IH.
      * f_equal. rewrite Hpow. nia.
      * lia.
      * rewrite Hpow. nia.
      * apply Z.div_pos; lia.
      * right. apply Z.div_le_lower_bound; lia.
      * rewrite Hpow. nia.
      * apply Z.div_lt_upper_bound; [lia|].
        replace (Z.of_nat (S more) + 1) with (Z.succ (Z.of_nat more + 1)) in Hfuel by lia.
        rewrite Z.pow_succ_r in Hfuel by lia. exact Hfuel.
Qed.

Lemma zigzag_range (v : Z) : - 2 ^ 29 <= v < 2 ^ 29 -> 0 <= zigzag v < 2 ^ 30.
Proof. intro H. unfold zigzag. destruct (v <? 0) eqn:E; lia. Qed.

(** A number followed by anything is read back, and the rest is left. *)
Lemma decodeChunks_encodeNumber (v : Z) (rest : jsstring) :
  - 2 ^ 29 <= v < 2 ^ 29 ->
  decodeChunks (encodeNumber v ++ rest) 0 0 = (zigzag v, rest).
Proof.
  intro H. pose proof (zigzag_range v H) as Hz. unfold encodeNumber.
  change (2 ^ 30) with 1073741824 in Hz.
  rewrite decodeChunks_encodeUnsigned;
    change (2 ^ 0) with 1; change (2 ^ 30) with 1073741824;
    change (32 ^ (Z.of_nat 6 + 1)) with 34359738368; try lia.
  f_equal. lia.
Qed.

Lemma encodeUnsigned_cons (more : nat) (n : Z) :
  exists c r, encodeUnsigned more n = c :: r.
Proof.
  destruct more; simpl; [eauto|]. destruct (n <? 32); eauto.
Qed.

Lemma decodeChunks_rest (s : jsstring) (shift result : Z) :
  (List.length (snd (decodeChunks s shift result)) <= Nat.pred (List.length s))%nat.
Proof.
  revert shift result. induction s as [|c r IH]; intros shift result.
  - simpl. lia.
  - cbn [decodeChunks]. destruct (32 <=? Z.of_N c - 63).
    + specialize (IH (shift + 5)
                     (or32 result (shl32 (and32 (Z.of_N c - 63) 31) shift))).
      simpl. lia.
    + simpl. lia.
Qed.

End PolylineRoundTrip.

Section PolylineLoop.

(** Fuel beyond the length of the string changes nothing: the loop ends
    by itself. *)
Lemma decodeLoop_fuel (fuel1 fuel2 : nat) (s : jsstring) (lat lng : Z)
  (coords : list (Q * Q)) :
  (List.length s <= fuel1)%nat -> (List.length s <= fuel2)%nat ->
  decodeLoop fuel1 s lat lng coords = decodeLoop fuel2 s lat lng coords.
Proof.
  revert fuel2 s lat lng coords.
  induction fuel1 as [|fuel1 IH]; intros fuel2 s lat lng coords H1 H2.
  - destruct s; [|simpl in H1; lia]. now destruct fuel2.
  - destruct s as [|c r]; [now destruct fuel2|].
    destruct fuel2 as [|fuel2]; [simpl in H2; lia|].
    cbn [decodeLoop].
    pose proof (decodeChunks_rest (c :: r) 0 0) as L1.
    destruct (decodeChunks (c :: r) 0 0) as [result1 rest1].
    pose proof (decodeChunks_rest rest1 0 0) as L2.
    destruct (decodeChunks rest1 0 0) as [result2 rest2].
    simpl in H1, H2, L1, L2. apply IH; lia.
Qed.

Lemma decodeLoop_size (fuel : nat) (s : jsstring) (lat lng : Z)
  (coords : list (Q * Q)) :
  (List.length (decodeLoop fuel s lat lng coords)
   <= List.length coords + (List.length s + 1) / 2)%nat.
Proof.
  revert s lat lng coords.
  induction fuel as [|fuel IH]; intros s lat lng coords.
  - simpl. lia.
  - destruct s as [|c r]; [simpl; lia|].
    cbn [decodeLoop].
    pose proof (decodeChunks_rest (c :: r) 0 0) as L1.
    destruct (decodeChunks (c :: r) 0 0) as [result1 rest1].
    pose proof (decodeChunks_rest rest1 0 0) as L2.
    destruct (decodeChunks rest1 0 0) as [result2 rest2].
    etransitivity; [apply IH|]. rewrite length_app.
    cbn [snd List.length] in L1, L2 |- *.
    destruct (List.length r) as [|a] eqn:Ea.
    + replace (List.length rest2) with 0%nat by lia. simpl. lia.
    + replace (S (S a) + 1)%nat with (S a + 1 * 2)%nat by lia.
      rewrite Nat.div_add by lia.
      assert ((List.length rest2 + 1) / 2 <= S a / 2)%nat
        by (apply Nat.Div0.div_le_mono; lia).
      lia.
Qed.

Lemma decodeLoop_encodeFrom (points : list (Z * Z)) (fuel : nat) (lat lng : Z)
  (coords : list (Q * Q)) :
  small_steps lat lng points -> (List.length points <= fuel)%nat ->
  decodeLoop fuel (encodeFrom lat lng points) lat lng coords
  = coords ++ map degrees points.
Proof.
  revert fuel lat lng coords.
  induction points as [|[lat' lng'] points IH]; intros fuel lat lng coords Hs Hf.
  - simpl. rewrite app_nil_r. now destruct fuel.
  - destruct fuel as [|fuel]; [simpl in Hf; lia|].
    destruct Hs as (Hlat & Hlng & Hs). cbn [encodeFrom].
    destruct (encodeUnsigned_cons 6 (zigzag (lat' - lat))) as (c & r & E).
    unfold encodeNumber at 1. rewrite E. cbn [app decodeLoop].
    change (c :: r ++ ?x) with ((c :: r) ++ x). rewrite <- E.
    fold (encodeNumber (lat' - lat)).
    rewrite decodeChunks_encodeNumber by exact Hlat.
    rewrite decodeChunks_encodeNumber by exact Hlng.
    rewrite !delta_zigzag by assumption.
    replace (lat + (lat' - lat))%Z with lat' by lia.
    replace (lng + (lng' - lng))%Z with lng' by lia.
    rewrite IH by (try assumption; simpl in Hf; lia).
    rewrite <- app_assoc. reflexivity.
Qed.

Lemma encodeFrom_length (points : list (Z * Z)) (lat lng : Z) :
  (List.length points <= List.length (encodeFrom lat lng points))%nat.
Proof.
  revert lat lng. induction points as [|[lat' lng'] points IH]; intros lat lng.
  - simpl. lia.
  - cbn [encodeFrom]. rewrite !length_app.
    destruct (encodeUnsigned_cons 6 (zigzag (lat' - lat))) as (c & r & E).
    unfold encodeNumber at 1. rewrite E. specialize (IH lat' lng'). simpl. lia.
Qed.

End PolylineLoop.

(** X13: the decoder ends by itself: fuel beyond the length of the string
    does not change its result; a string of n code units gives at most
    (n + 1) / 2 points, the empty string none. *)
Theorem decodePolyline_size (encoded : jsstring) :
  (forall fuel, (List.length encoded <= fuel)%nat ->
     decodeLoop fuel encoded 0 0 [] = decodePolyline encoded)
  /\ (List.length (decodePolyline encoded) <= (List.length encoded + 1) / 2)%nat
  /\ decodePolyline [] = [].
Proof.
  split; [|split].
  - intros fuel H. unfold decodePolyline. now apply decodeLoop_fuel.
  - unfold decodePolyline.
    apply (decodeLoop_size (List.length encoded) encoded 0 0 []).
  - reflexivity.
Qed.

(** X14: the decoder reads back every path written in the polyline
    format (steps from point to point, 5-bit chunks, offset 63), as long
    as each step is within 2^29 units of 1e-5 degree: it returns the
    points in degrees. *)
Theorem decodePolyline_encodePolyline (points : list (Z * Z)) :
  small_steps 0 0 points ->
  decodePolyline (encodePolyline points) = map degrees points.
Proof.
  intro H. unfold decodePolyline, encodePolyline.
  apply (decodeLoop_encodeFrom points _ 0%Z 0%Z []); [exact H|].
  apply encodeFrom_length.
Qed.

(** The example of the format's documentation: (38.5, -120.2),
    (40.7, -120.95), (43.252, -126.453). *)
Lemma decodePolyline_encodePolyline_witness :
  encodePolyline [(3850000, -12020000); (4070000, -12095000); (4325200, -12645300)]%Z
  = js "_p~iF~ps|U_ulLnnqC_mqNvxq`@"
  /\ decodePolyline
       (encodePolyline
          [(3850000, -12020000); (4070000, -12095000); (4325200, -12645300)]%Z)
     = map degrees
           [(3850000, -12020000); (4070000, -12095000); (4325200, -12645300)]%Z.
Proof.
  split; [reflexivity|].
  apply decodePolyline_encodePolyline. cbv. intuition discriminate.
Defined.

(* ================================================================== *)
(** ** The segment store (hooks/useSegments, [loadForBounds]) *)
(* ================================================================== *)

Module SegmentStore.

Section Store.

(** A segment summary of the explore endpoint and the details of a
    segment; the store reads the [id] of a summary only. *)
Context {Summary Details : Type}.
Variable id : Summary -> Z.

(** A value of [segments]: [{ data, details }]. *)
Record entry : Type := mkEntry {
  data : Summary;
  details : nullable Details
}.

(** A [Set] of ids: its elements in insertion order. *)
Definition idset : Type := list Z.

Definition has (s : idset) (i : Z) : bool := existsb (Z.eqb i) s.

Definition add (s : idset) (i : Z) : idset := if has s i then s else s ++ [i].

(** The object [segments], read and written by key only: the value
    under each key, [None] where the key is absent. *)
Definition store : Type := Z -> option entry.

(** [{ ...m, [i]: e }] *)
Definition put (i : Z) (e : entry) (m : store) : store :=
  fun j => if Z.eqb j i then Some e else m j.

(** One round of the loop that flattens the batches: [seen] and
    [explored]. *)
Definition see (st : idset * list Summary) (seg : Summary) : idset * list Summary :=
  let '(seen, explored) := st in
  if negb (has seen (id seg)) then (add seen (id seg), explored ++ [seg])
  else (seen, explored).

(** The two nested loops over [results]; returns [explored]. *)
Definition dedupe (results : list (list Summary)) : list Summary :=
  snd (fold_left (fun st batch => fold_left see batch st) results ([], [])).

(** The loop over [explored] that picks the segments whose details are
    to be fetched; returns [newSegments] and the set [detailsFetched]
    as the loop leaves it. *)
Definition selectNew (detailsFetched : idset) (explored : list Summary)
  : list Summary * idset :=
  fold_left
    (fun '(newSegments, fetched) seg =>
       if negb (has fetched (id seg))
       then (newSegments ++ [seg], add fetched (id seg))
       else (newSegments, fetched))
    explored ([], detailsFetched).

(** The updater that adds the shells: [prev] is copied before the first
    write and never changed itself. *)
Definition addShells (explored : list Summary) (prev : store) : store :=
  fold_left
    (fun updated seg =>
       match updated (id seg) with
       | Some _ => updated
       | None => put (id seg) (mkEntry seg Null) updated
       end)
    explored prev.

(** The updater run when the details of segment [segId] arrive. *)
Definition setDetails (segId : Z) (d : Details) (prev : store) : store :=
  match prev segId with
  | None => prev
  | Some e => put segId (mkEntry (data e) (Val d)) prev
  end.

(** First summary of a list with a given id. *)
Definition first_with (i : Z) (l : list Summary) : option Summary :=
  List.find (fun s => Z.eqb (id s) i) l.

End Store.

End SegmentStore.

Section StoreFacts.

Context {Summary Details : Type}.
Variable id : Summary -> Z.

Local Abbreviation ids := (map id).
Local Abbreviation first_with := (SegmentStore.first_with id).
Local Abbreviation has := SegmentStore.has.
Local Abbreviation add := SegmentStore.add.
Local Abbreviation see := (SegmentStore.see id).

Lemma has_In (s : SegmentStore.idset) (i : Z) : has s i = true <-> In i s.
Proof.
  unfold SegmentStore.has. rewrite existsb_exists. split.
  - intros (j & Hj & E). apply Z.eqb_eq in E. now subst.
  - intro H. exists i. split; [exact H|apply Z.eqb_refl].
Qed.

Lemma has_add (s : SegmentStore.idset) (i j : Z) :
  has (add s i) j = has s j || Z.eqb j i.
Proof.
  unfold SegmentStore.add. destruct (has s i) eqn:E.
  - destruct (Z.eqb j i) eqn:Eji; [|now rewrite orb_false_r].
    apply Z.eqb_eq in Eji. subst. now rewrite E.
  - unfold SegmentStore.has. rewrite existsb_app. simpl. now rewrite orb_false_r.
Qed.

Lemma first_with_app (i : Z) (l1 l2 : list Summary) :
  first_with i (l1 ++ l2)
  = match first_with i l1 with Some s => Some s | None => first_with i l2 end.
Proof.
  unfold SegmentStore.first_with. induction l1 as [|s l1 IH]; simpl; [reflexivity|].
  destruct (Z.eqb (id s) i); [reflexivity|exact IH].
Qed.

Lemma first_with_None (i : Z) (l : list Summary) :
  first_with i l = None <-> ~ In i (ids l).
Proof.
  unfold SegmentStore.first_with. induction l as [|s l IH]; simpl; [tauto|].
  destruct (Z.eqb (id s) i) eqn:E.
  - apply Z.eqb_eq in E. split; [discriminate|]. intro H. exfalso. apply H. now left.
  - apply Z.eqb_neq in E. rewrite IH. tauto.
Qed.

Lemma first_with_Some (i : Z) (l : list Summary) (s : Summary) :
  first_with i l = Some s -> In s l /\ id s = i.
Proof.
  unfold SegmentStore.first_with. intro H. apply find_some in H as [H1 H2].
  apply Z.eqb_eq in H2. now split.
Qed.

(** [seen] holds the ids of [explored], which are distinct. *)
Definition seen_explored (st : SegmentStore.idset * list Summary) : Prop :=
  (forall i, has (fst st) i = true <-> In i (ids (snd st)))
  /\ NoDup (ids (snd st)).

Lemma fold_see (l : list Summary) (seen : SegmentStore.idset) (explored : list Summary) :
  seen_explored (seen, explored) ->
  seen_explored (fold_left see l (seen, explored))
  /\ forall i, first_with i (snd (fold_left see l (seen, explored)))
               = first_with i (explored ++ l).
Proof.
  revert seen explored.
  induction l as [|seg l IH]; intros seen explored [Hs Hn]; cbn [fst snd] in *.
  - simpl. rewrite app_nil_r. repeat split; assumption || apply Hs.
  - cbn [fold_left]. destruct (has seen (id seg)) eqn:E.
    + assert (Est : see (seen, explored) seg = (seen, explored))
        by (unfold SegmentStore.see; now rewrite E).
      rewrite Est.
      destruct (IH seen explored (conj Hs Hn)) as [Hinv Hf].
      split; [exact Hinv|]. intro i. rewrite Hf, !first_with_app.
      destruct (first_with i explored) eqn:F; [reflexivity|].
      apply first_with_None in F. apply Hs in E.
      unfold SegmentStore.first_with. simpl.
      destruct (Z.eqb (id seg) i) eqn:Ei; [|reflexivity].
      apply Z.eqb_eq in Ei. subst. contradiction.
    + assert (Est : see (seen, explored) seg
                    = (add seen (id seg), explored ++ [seg]))
        by (unfold SegmentStore.see; now rewrite E).
      rewrite Est.
      assert (Hinv : seen_explored (add seen (id seg), explored ++ [seg])).
      { split; cbn [fst snd].
        - intro i. rewrite has_add, map_app, in_app_iff, orb_true_iff, Hs.
          simpl. rewrite Z.eqb_eq. intuition.
        - rewrite map_app. apply NoDup_app. repeat split.
          + exact Hn.
          + repeat constructor. simpl. tauto.
          + intros a Ha [<-|[]]. apply Hs in Ha. congruence. }
      destruct (IH _ _ Hinv) as [Hinv' Hf].
      split; [exact Hinv'|]. intro i. now rewrite Hf, <- app_assoc.
Qed.

Lemma fold_batches (results : list (list Summary))
  (st : SegmentStore.idset * list Summary) :
  fold_left (fun st batch => fold_left see batch st) results st
  = fold_left see (List.concat results) st.
Proof.
  revert st. induction results as [|b results IH]; intro st; simpl; [reflexivity|].
  now rewrite IH, fold_left_app.
Qed.

End StoreFacts.

(** The picking loop, as a recursion over [explored]. *)
Fixpoint pick {Summary : Type} (id : Summary -> Z) (fetched : SegmentStore.idset)
  (explored : list Summary) : list Summary * SegmentStore.idset :=
  match explored with
  | [] => ([], fetched)
  | seg :: rest =>
      if SegmentStore.has fetched (id seg) then pick id fetched rest
      else let (picked, fetched') := pick id (SegmentStore.add fetched (id seg)) rest in
           (seg :: picked, fetched')
  end.

Section StoreLoops.

Context {Summary Details : Type}.
Variable id : Summary -> Z.

Local Abbreviation ids := (map id).
Local Abbreviation has := SegmentStore.has.
Local Abbreviation add := SegmentStore.add.

Lemma selectNew_pick (explored newSegments : list Summary) (fetched : SegmentStore.idset) :
  fold_left
    (fun '(newSegments, fetched) seg =>
       if negb (has fetched (id seg))
       then (newSegments ++ [seg], add fetched (id seg))
       else (newSegments, fetched))
    explored (newSegments, fetched)
  = (newSegments ++ fst (pick id fetched explored), snd (pick id fetched explored)).
Proof.
  revert newSegments fetched.
  induction explored as [|seg rest IH]; intros newSegments fetched; simpl.
  - now rewrite app_nil_r.
  - destruct (has fetched (id seg)); simpl; rewrite IH; [reflexivity|].
    destruct (pick id (add fetched (id seg)) rest) as [picked fetched'].
    simpl. now rewrite <- app_assoc.
Qed.

Lemma selectNew_eq (explored : list Summary) (fetched : SegmentStore.idset) :
  SegmentStore.selectNew id fetched explored = pick id fetched explored.
Proof.
  unfold SegmentStore.selectNew. rewrite selectNew_pick. simpl.
  now destruct (pick id fetched explored).
Qed.

Lemma pick_fetched (explored : list Summary) (fetched : SegmentStore.idset) (i : Z) :
  has (snd (pick id fetched explored)) i = has fetched i || existsb (Z.eqb i) (ids explored).
Proof.
  revert fetched. induction explored as [|seg rest IH]; intro fetched; simpl.
  - now rewrite orb_false_r.
  - destruct (has fetched (id seg)) eqn:E.
    + rewrite IH. destruct (Z.eqb i (id seg)) eqn:Ei; [|reflexivity].
      apply Z.eqb_eq in Ei. subst. now rewrite E.
    + specialize (IH (add fetched (id seg))).
      destruct (pick id (add fetched (id seg)) rest) as [picked fetched'].
      simpl in *. rewrite IH, has_add. now rewrite orb_assoc.
Qed.

Lemma pick_picked (explored : list Summary) (fetched : SegmentStore.idset) (i : Z) :
  In i (ids (fst (pick id fetched explored)))
  <-> In i (ids explored) /\ has fetched i = false.
Proof.
  revert fetched. induction explored as [|seg rest IH]; intro fetched; simpl.
  - tauto.
  - destruct (has fetched (id seg)) eqn:E.
    + rewrite IH. split; [tauto|]. intros [[<-|H] Hf]; [congruence|tauto].
    + specialize (IH (add fetched (id seg))).
      destruct (pick id (add fetched (id seg)) rest) as [picked fetched'].
      simpl in *. rewrite IH, has_add, orb_false_iff, Z.eqb_neq.
      split.
      * intros [<-|[H1 [H2 H3]]]; tauto.
      * intros [[<-|H] Hf]; [now left|].
        destruct (Z.eq_dec (id seg) i) as [->|Hne]; [now left|].
        right. repeat split; try assumption. congruence.
Qed.

Lemma pick_NoDup (explored : list Summary) (fetched : SegmentStore.idset) :
  NoDup (ids (fst (pick id fetched explored))).
Proof.
  revert fetched. induction explored as [|seg rest IH]; intro fetched; simpl.
  - constructor.
  - destruct (has fetched (id seg)) eqn:E; [apply IH|].
    pose proof (pick_picked rest (add fetched (id seg)) (id seg)) as Hp.
    specialize (IH (add fetched (id seg))).
    destruct (pick id (add fetched (id seg)) rest) as [picked fetched'].
    simpl in *. constructor; [|exact IH].
    rewrite Hp, has_add, Z.eqb_refl, orb_true_r. intros [_ H]. discriminate.
Qed.

Lemma pick_nothing (explored : list Summary) (fetched : SegmentStore.idset) :
  (forall seg, In seg explored -> has fetched (id seg) = true) ->
  pick id fetched explored = ([], fetched).
Proof.
  induction explored as [|seg rest IH]; intro H; simpl; [reflexivity|].
  rewrite (H seg) by now left. apply IH. intros s Hs. apply H. now right.
Qed.

Lemma addShells_lookup (explored : list Summary) (prev : @SegmentStore.store Summary Details)
  (i : Z) :
  SegmentStore.addShells id explored prev i
  = match prev i with
    | Some e => Some e
    | None => option_map (fun seg => SegmentStore.mkEntry seg Null)
                         (SegmentStore.first_with id i explored)
    end.
Proof.
  revert prev. unfold SegmentStore.addShells, SegmentStore.first_with.
  induction explored as [|seg rest IH]; intro prev; simpl.
  - now destruct (prev i).
  - rewrite IH. destruct (prev (id seg)) eqn:E.
    + destruct (prev i) eqn:Ei; [reflexivity|].
      destruct (Z.eqb (id seg) i) eqn:En; [|reflexivity].
      apply Z.eqb_eq in En. congruence.
    + unfold SegmentStore.put. rewrite (Z.eqb_sym i).
      destruct (Z.eqb (id seg) i) eqn:En; [|reflexivity].
      apply Z.eqb_eq in En. subst. now rewrite E.
Qed.

End StoreLoops.

Section StoreTheorems.

Context {Summary Details : Type}.
Variable id : Summary -> Z.

Lemma first_with_In (l : list Summary) (seg : Summary) :
  NoDup (map id l) -> In seg l -> SegmentStore.first_with id (id seg) l = Some seg.
Proof.
  unfold SegmentStore.first_with.
  induction l as [|s l IH]; intros Hn Hin; [destruct Hin|].
  simpl in *. inversion Hn as [|? ? Hs Hn']; subst.
  destruct Hin as [->|Hin]; [now rewrite Z.eqb_refl|].
  destruct (Z.eqb (id s) (id seg)) eqn:E; [|now apply IH].
  apply Z.eqb_eq in E. exfalso. apply Hs. rewrite E. now apply in_map.
Qed.

(** X15: flattening the batches keeps, for every id, the first summary
    that carries it, and nothing else: the ids of the result are
    distinct, looking an id up in the result or in the batches laid end
    to end finds the same summary, and every summary of the result
    comes from a batch. *)
Theorem dedupe_first_occurrences (results : list (list Summary)) :
  NoDup (map id (SegmentStore.dedupe id results))
  /\ (forall i, SegmentStore.first_with id i (SegmentStore.dedupe id results)
                = SegmentStore.first_with id i (List.concat results))
  /\ (forall seg, In seg (SegmentStore.dedupe id results) ->
                  In seg (List.concat results)).
Proof.
  unfold SegmentStore.dedupe. rewrite fold_batches.
  assert (H0 : seen_explored id ([], [])).
  { split; simpl; [|constructor]. intro i. split; [discriminate|tauto]. }
  destruct (fold_see id (List.concat results) [] [] H0) as [[_ Hn] Hf].
  simpl app in Hf. repeat split; try assumption.
  intros seg Hin. apply (first_with_In _ _ Hn) in Hin.
  rewrite Hf in Hin. now apply first_with_Some in Hin.
Qed.

(** X16: adding the shells leaves every entry of the store as it is,
    details included; an id that was absent gets the first explored
    summary that carries it, with null details; no other key appears. *)
Theorem addShells_entries (explored : list Summary)
  (prev : @SegmentStore.store Summary Details) :
  (forall i e, prev i = Some e -> SegmentStore.addShells id explored prev i = Some e)
  /\ (forall i seg, prev i = None ->
        SegmentStore.first_with id i explored = Some seg ->
        SegmentStore.addShells id explored prev i
        = Some (SegmentStore.mkEntry seg Null))
  /\ (forall i, SegmentStore.addShells id explored prev i = None
                <-> prev i = None /\ ~ In i (map id explored)).
Proof.
  repeat split.
  - intros i e H. now rewrite addShells_lookup, H.
  - intros i seg H F. now rewrite addShells_lookup, H, F.
  - rewrite addShells_lookup in H. now destruct (prev i).
  - rewrite addShells_lookup in H. destruct (prev i); [discriminate|].
    apply first_with_None.
    destruct (SegmentStore.first_with id i explored); [discriminate|reflexivity].
  - intros [H F]. rewrite addShells_lookup, H.
    apply first_with_None in F. now rewrite F.
Qed.

(** X17: the loop picks, once each, the explored ids whose details were
    not fetched yet and marks them as fetched; run again on the same
    segments it picks nothing and leaves the set as it is. *)
Theorem selectNew_once (detailsFetched : SegmentStore.idset) (explored : list Summary) :
  let newSegments := fst (SegmentStore.selectNew id detailsFetched explored) in
  let fetched := snd (SegmentStore.selectNew id detailsFetched explored) in
  NoDup (map id newSegments)
  /\ (forall i, In i (map id newSegments)
                <-> In i (map id explored)
                    /\ SegmentStore.has detailsFetched i = false)
  /\ (forall i, SegmentStore.has fetched i = true
                <-> SegmentStore.has detailsFetched i = true
                    \/ In i (map id explored))
  /\ SegmentStore.selectNew id fetched explored = ([], fetched).
Proof.
  cbv zeta. rewrite !selectNew_eq.
  split; [apply pick_NoDup|]. split; [apply pick_picked|].
  assert (Hf : forall i,
             SegmentStore.has (snd (pick id detailsFetched explored)) i = true
             <-> SegmentStore.has detailsFetched i = true \/ In i (map id explored)).
  { intro i. rewrite pick_fetched, orb_true_iff, existsb_exists.
    split; intros [H|H]; try tauto.
    - right. destruct H as (j & Hj & E). apply Z.eqb_eq in E. now subst.
    - right. exists i. split; [exact H|apply Z.eqb_refl]. }
  split; [exact Hf|].
  rewrite pick_nothing; [reflexivity|].
  intros seg Hin. apply Hf. right. now apply in_map.
Qed.

(** X18: details that arrive are stored under their segment, beside the
    summary the shell was made of; the other entries stay as they are,
    and no key appears or disappears: details arriving for a segment
    that is not in the store (any more) are dropped. *)
Theorem setDetails_entries (explored : list Summary)
  (prev : @SegmentStore.store Summary Details) (segId : Z) (d : Details) :
  (forall seg, prev segId = None ->
     SegmentStore.first_with id segId explored = Some seg ->
     SegmentStore.setDetails segId d (SegmentStore.addShells id explored prev) segId
     = Some (SegmentStore.mkEntry seg (Val d)))
  /\ (forall e, prev segId = Some e ->
        SegmentStore.setDetails segId d prev segId
        = Some (SegmentStore.mkEntry (SegmentStore.data e) (Val d)))
  /\ (forall j, j <> segId -> SegmentStore.setDetails segId d prev j = prev j)
  /\ (forall j, SegmentStore.setDetails segId d prev j = None <-> prev j = None).
Proof.
  unfold SegmentStore.setDetails. repeat split.
  - intros seg H F. rewrite addShells_lookup, H, F. simpl.
    unfold SegmentStore.put. now rewrite Z.eqb_refl.
  - intros e H. rewrite H. unfold SegmentStore.put. now rewrite Z.eqb_refl.
  - intros j Hj. destruct (prev segId); [|reflexivity].
    unfold SegmentStore.put. now replace (Z.eqb j segId) with false
      by (symmetry; now apply Z.eqb_neq).
  - destruct (prev segId) eqn:E; [|tauto]. unfold SegmentStore.put.
    destruct (Z.eqb j segId) eqn:Ej; [discriminate|tauto].
  - intro H. destruct (prev segId) eqn:E; [|exact H]. unfold SegmentStore.put.
    destruct (Z.eqb j segId) eqn:Ej; [|exact H].
    apply Z.eqb_eq in Ej. congruence.
Qed.

End StoreTheorems.

(* ================================================================== *)
(** ** The token exchange worker (worker/index.js) *)
(* ================================================================== *)

Module Worker.

Local Open Scope string_scope.

Set Warnings "-register-all".

(** A JSON value, as [request.json()] and [res.json()] deliver it. *)
Inductive json : Type :=
| JNull
| JBool (b : bool)
| JNum (x : Q)
| JStr (s : string)
| JArr (items : list json)
| JObj (fields : list (string * json)).

Set Warnings "register-all".

(** An awaited call: its value, or the message of the error thrown. *)
Inductive outcome (A : Type) : Type :=
| Ok (a : A)
| Raise (message : string).
Arguments Ok {A} a.
Arguments Raise {A} message.

Definition andThen {A B} (c : outcome A) (k : A -> outcome B) : outcome B :=
  match c with
  | Ok a => k a
  | Raise m => Raise m
  end.

Fixpoint lookup (key : string) (fields : list (string * json)) : option json :=
  match fields with
  | [] => None
  | (k, v) :: rest => if String.eqb k key then Some v else lookup key rest
  end.

(** [value.key] for one of the keys the worker reads: a property of an
    object, undefined ([None]) on other values, a TypeError on null. *)
Definition get (value : json) (key : string) : outcome (option json) :=
  match value with
  | JNull => Raise "Cannot read properties of null"
  | JObj fields => Ok (lookup key fields)
  | _ => Ok None
  end.

(** Truthiness of a property read. *)
Definition truthy (v : option json) : bool :=
  match v with
  | None | Some JNull => false
  | Some (JBool b) => b
  | Some (JNum x) => negb (Qeq_bool x 0)
  | Some (JStr s) => negb (String.eqb s "")
  | Some (JArr _) | Some (JObj _) => true
  end.

(** An object literal handed to [JSON.stringify]: the properties whose
    value is undefined are left out. *)
Fixpoint literal (props : list (string * option json)) : list (string * json) :=
  match props with
  | [] => []
  | (k, Some v) :: rest => (k, v) :: literal rest
  | (k, None) :: rest => literal rest
  end.

(** The body of a response: a text, or the JSON text of a value. *)
Inductive content : Type :=
| Text (s : string)
| Json (v : json).

(** A header list: the names are kept in lower case, as [Headers]
    normalizes them; a value is a string of bytes, held as code units. *)
Definition header_list : Type := list (string * jsstring).

Record response : Type := mkResponse {
  status : Z;
  headers : header_list;
  body : option content
}.

(** HTTP white space: tab, line feed, carriage return, space. *)
Definition isHttpWhitespace (c : N) : bool :=
  ((c =? 9) || (c =? 10) || (c =? 13) || (c =? 32))%N.

(** A value with its leading and trailing HTTP white space removed. *)
Definition normalize (value : jsstring) : jsstring :=
  rev (dropWhile isHttpWhitespace (rev (dropWhile isHttpWhitespace value))).

(** A header value holds bytes only (code units up to 255), and none of
    NUL, line feed, carriage return. *)
Definition isHeaderValue (value : jsstring) : bool :=
  forallb (fun c => (c <=? 255) && negb ((c =? 0) || (c =? 10) || (c =? 13)))%N
          value.

(** What [Headers] stores for a value handed to it: the value normalized,
    or a TypeError when that is no header value. *)
Definition header_value (value : jsstring) : outcome jsstring :=
  let v := normalize value in
  if isHeaderValue v then Ok v else Raise "TypeError: invalid header value".

Fixpoint remove (name : string) (hs : header_list) : header_list :=
  match hs with
  | [] => []
  | (n, v) :: rest =>
      if String.eqb n name then remove name rest else (n, v) :: remove name rest
  end.

(** The first header of that name takes the value and the others are
    removed; without such a header the pair is appended. *)
Fixpoint put (name : string) (value : jsstring) (hs : header_list) : header_list :=
  match hs with
  | [] => [(name, value)]
  | (n, v) :: rest =>
      if String.eqb n name then (name, value) :: remove name rest
      else (n, v) :: put name value rest
  end.

(** [headers.set(name, value)], for the names the worker uses. *)
Definition set (name : string) (value : jsstring) (hs : header_list)
  : outcome header_list :=
  andThen (header_value value) (fun v => Ok (put name v hs)).

Fixpoint header (name : string) (hs : header_list) : option jsstring :=
  match hs with
  | [] => None
  | (n, v) :: rest => if String.eqb n name then Some v else header name rest
  end.

(** 101, 103, 204, 205 and 304 admit no body. *)
Definition null_body_status (s : Z) : bool :=
  ((s =? 101) || (s =? 103) || (s =? 204) || (s =? 205) || (s =? 304))%Z.

(** [new Response(body, { status, headers })].  A status outside
    200..599 is a RangeError, a body with a null-body status a TypeError;
    a text body without content type gets text/plain.  [from_text] tells
    a string body from the stream of another response.  The headers are
    those of a literal of the code or of a [Headers] object, valid in
    both cases. *)
Definition newResponse (b : option content) (from_text : bool) (s : Z)
  (hs : header_list) : outcome response :=
  if ((s <? 200) || (599 <? s))%Z then Raise "RangeError: invalid status"
  else match b with
       | Some _ =>
           if null_body_status s then Raise "TypeError: null body status"
           else if from_text then
             match header "content-type" hs with
             | Some _ => Ok (mkResponse s hs b)
             | None =>
                 Ok (mkResponse s (hs ++ [("content-type", js "text/plain;charset=UTF-8")])%list b)
             end
           else Ok (mkResponse s hs b)
       | None => Ok (mkResponse s hs b)
       end.

(** The variables of the environment; the allowed origin is kept as the
    JavaScript string it is, since [Headers] inspects its code units. *)
Record Env : Type := mkEnv {
  STRAVA_CLIENT_ID : option string;
  STRAVA_CLIENT_SECRET : option string;
  ALLOWED_ORIGIN : option jsstring
}.

(** [request.method], the path of [request.url], and what
    [request.json()] gives. *)
Record request : Type := mkRequest {
  method : string;
  pathname : string;
  json_body : outcome json
}.

(** [jsonResponse(data, status)] *)
Definition jsonResponse (data : json) (s : Z) : outcome response :=
  newResponse (Some (Json data)) true s [("content-type", js "application/json")].

(** [env.ALLOWED_ORIGIN || '*'] *)
Definition allowed_origin (env : Env) : jsstring :=
  match ALLOWED_ORIGIN env with
  | Some [] | None => js "*"
  | Some o => o
  end.

(** [corsResponse(env, response)] *)
Definition corsResponse (env : Env) (r : response) : outcome response :=
  let origin := allowed_origin env in
  andThen (set "access-control-allow-origin" origin (headers r)) (fun hs =>
  andThen (set "access-control-allow-methods" (js "POST, OPTIONS") hs) (fun hs =>
  andThen (set "access-control-allow-headers" (js "Content-Type") hs) (fun hs =>
  andThen (set "access-control-max-age" (js "86400") hs) (fun hs =>
  newResponse (body r) false (status r) hs)))).

Definition string_prop (v : option string) : option json := option_map JStr v.

Section Upstream.

(** The token endpoint: for the JSON sent, the status of the answer and
    what [res.json()] gives, or the error of a failed [fetch]. *)
Variable token_endpoint : json -> outcome (Z * outcome json).

(** [res.ok] *)
Definition ok (s : Z) : bool := ((200 <=? s) && (s <=? 299))%Z.

(** [data.message || fallback] *)
Definition message_or (m : option json) (fallback : string) : json :=
  if truthy m then match m with Some v => v | None => JStr fallback end
  else JStr fallback.

(** [handleExchange] *)
Definition handleExchange (req : request) (env : Env) : outcome response :=
  andThen (json_body req) (fun parsed =>
  andThen (get parsed "code") (fun code =>
    if negb (truthy code)
    then jsonResponse (JObj (literal [("error", Some (JStr "Missing code"))])) 400
    else
      andThen (token_endpoint
                 (JObj (literal
                    [ ("client_id", string_prop (STRAVA_CLIENT_ID env));
                      ("client_secret", string_prop (STRAVA_CLIENT_SECRET env));
                      ("code", code);
                      ("grant_type", Some (JStr "authorization_code")) ])))
        (fun res =>
           let '(s, parsed_data) := res in
           andThen parsed_data (fun data =>
             if negb (ok s) then
               andThen (get data "message") (fun m =>
                 jsonResponse
                   (JObj (literal
                      [("error", Some (message_or m "Token exchange failed"))]))
                   s)
             else
               andThen (get data "access_token") (fun access_token =>
               andThen (get data "refresh_token") (fun refresh_token =>
               andThen (get data "expires_at") (fun expires_at =>
                 jsonResponse
                   (JObj (literal [ ("access_token", access_token);
                                    ("refresh_token", refresh_token);
                                    ("expires_at", expires_at) ]))
                   200))))))).

(** [handleRefresh] *)
Definition handleRefresh (req : request) (env : Env) : outcome response :=
  andThen (json_body req) (fun parsed =>
  andThen (get parsed "refresh_token") (fun refresh_token =>
    if negb (truthy refresh_token)
    then jsonResponse
           (JObj (literal [("error", Some (JStr "Missing refresh_token"))])) 400
    else
      andThen (token_endpoint
                 (JObj (literal
                    [ ("client_id", string_prop (STRAVA_CLIENT_ID env));
                      ("client_secret", string_prop (STRAVA_CLIENT_SECRET env));
                      ("refresh_token", refresh_token);
                      ("grant_type", Some (JStr "refresh_token")) ])))
        (fun res =>
           let '(s, parsed_data) := res in
           andThen parsed_data (fun data =>
             if negb (ok s) then
               andThen (get data "message") (fun m =>
                 jsonResponse
                   (JObj (literal
                      [("error", Some (message_or m "Token refresh failed"))]))
                   s)
             else
               andThen (get data "access_token") (fun access_token =>
               andThen (get data "refresh_token") (fun new_refresh_token =>
               andThen (get data "expires_at") (fun expires_at =>
                 jsonResponse
                   (JObj (literal [ ("access_token", access_token);
                                    ("refresh_token", new_refresh_token);
                                    ("expires_at", expires_at) ]))
                   200))))))).

(** The body of the [try] block. *)
Definition route (req : request) (env : Env) : outcome response :=
  if String.eqb (method req) "POST" && String.eqb (pathname req) "/exchange"
  then andThen (handleExchange req env) (corsResponse env)
  else if String.eqb (method req) "POST" && String.eqb (pathname req) "/refresh"
  then andThen (handleRefresh req env) (corsResponse env)
  else andThen (newResponse (Some (Text "Not found")) true 404 []) (corsResponse env).

(** [fetch(request, env)].  The preflight branch is outside the [try];
    what the handler of the [catch] throws leaves [fetch]. *)
Definition fetch (req : request) (env : Env) : outcome response :=
  if String.eqb (method req) "OPTIONS"
  then andThen (newResponse None true 204 []) (corsResponse env)
  else
    match route req env with
    | Ok r => Ok r
    | Raise message =>
        andThen
          (newResponse (Some (Json (JObj (literal [("error", Some (JStr message))]))))
                       true 500 [("content-type", js "application/json")])
          (corsResponse env)
    end.

End Upstream.

End Worker.

Import Worker.

(** The four CORS headers [corsResponse] sets, for an allowed origin. *)
Definition cors_headers (origin : jsstring) (r : response) : Prop :=
  header "access-control-allow-origin" (headers r) = Some origin
  /\ header "access-control-allow-methods" (headers r) = Some (js "POST, OPTIONS")
  /\ header "access-control-allow-headers" (headers r) = Some (js "Content-Type")
  /\ header "access-control-max-age" (headers r) = Some (js "86400").

(** A response the constructor accepts. *)
Definition well_formed (r : response) : Prop :=
  (200 <= status r <= 599)%Z
  /\ (body r <> None -> null_body_status (status r) = false).

(** The worker answers with this status and body. *)
Definition answers (result : outcome response) (s : Z) (b : option content) : Prop :=
  exists r, result = Ok r /\ status r = s /\ body r = b.

Section WorkerFacts.

Local Open Scope string_scope.

Lemma header_put_same (name : string) (value : jsstring) (hs : header_list) :
  header name (put name value hs) = Some value.
Proof.
  induction hs as [|[n v] hs IH]; simpl.
  - now rewrite String.eqb_refl.
  - destruct (String.eqb n name) eqn:E; simpl.
    + now rewrite String.eqb_refl.
    + now rewrite E.
Qed.

Lemma header_remove_other (name other : string) (hs : header_list) :
  String.eqb other name = false ->
  header name (remove other hs) = header name hs.
Proof.
  intro H. induction hs as [|[n v] hs IH]; simpl; [reflexivity|].
  destruct (String.eqb n other) eqn:E; simpl.
  - apply String.eqb_eq in E. subst. now rewrite H.
  - destruct (String.eqb n name); [reflexivity|exact IH].
Qed.

Lemma header_put_other (name other : string) (value : jsstring) (hs : header_list) :
  String.eqb other name = false ->
  header name (put other value hs) = header name hs.
Proof.
  intro H. induction hs as [|[n v] hs IH]; simpl.
  - now rewrite H.
  - destruct (String.eqb n other) eqn:E; simpl.
    + apply String.eqb_eq in E. subst. rewrite H.
      now apply header_remove_other.
    + destruct (String.eqb n name); [reflexivity|exact IH].
Qed.

(** The three constant values of [corsResponse] are header values. *)
Lemma header_value_methods : header_value (js "POST, OPTIONS") = Ok (js "POST, OPTIONS").
Proof. reflexivity. Qed.

Lemma header_value_headers : header_value (js "Content-Type") = Ok (js "Content-Type").
Proof. reflexivity. Qed.

Lemma header_value_max_age : header_value (js "86400") = Ok (js "86400").
Proof. reflexivity. Qed.


Lemma newResponse_Ok (b : option content) (from_text : bool) (s : Z)
  (hs : header_list) (r : response) :
  newResponse b from_text s hs = Ok r ->
  well_formed r /\ status r = s /\ body r = b
  /\ forall name, header name hs <> None -> header name (headers r) = header name hs.
Proof.
  unfold newResponse, well_formed.
  destruct ((s <? 200) || (599 <? s))%Z eqn:Es; [discriminate|].
  apply orb_false_elim in Es as [E1 E2].
  apply Z.ltb_ge in E1, E2.
  destruct b as [c|].
  - destruct (null_body_status s) eqn:En; [discriminate|].
    destruct from_text; [destruct (header "content-type" hs) eqn:Eh|];
      intro H; injection H as <-; simpl; repeat split; try lia;
      try (intros; assumption); try (intros; reflexivity).
    intros name Hn. clear Eh. induction hs as [|[n v] hs IH]; simpl in *.
    + contradiction.
    + destruct (String.eqb n name); [reflexivity|now apply IH].
  - intro H. injection H as <-. simpl. repeat split; try lia;
      try (intros; reflexivity).
    intro H. contradiction.
Qed.

Lemma newResponse_well_formed (b : option content) (from_text : bool) (s : Z)
  (hs : header_list) :
  (200 <= s <= 599)%Z -> (b <> None -> null_body_status s = false) ->
  exists r, newResponse b from_text s hs = Ok r.
Proof.
  intros Hs Hb. unfold newResponse.
  replace ((s <? 200) || (599 <? s))%Z with false.
  2: { symmetry. apply orb_false_intro; apply Z.ltb_ge; lia. }
  destruct b as [c|]; [|eauto].
  rewrite Hb by discriminate.
  destruct from_text; [destruct (header "content-type" hs)|]; eauto.
Qed.

(** [corsResponse] with an allowed origin that is a header value. *)
Lemma corsResponse_valid (env : Env) (origin : jsstring) (r0 : response) :
  header_value (allowed_origin env) = Ok origin ->
  corsResponse env r0 =
  newResponse (body r0) false (status r0)
    (put "access-control-max-age" (js "86400")
       (put "access-control-allow-headers" (js "Content-Type")
          (put "access-control-allow-methods" (js "POST, OPTIONS")
             (put "access-control-allow-origin" origin (headers r0))))).
Proof.
  intro H. unfold corsResponse, set. cbv zeta.
  rewrite H, header_value_methods, header_value_headers, header_value_max_age.
  reflexivity.
Qed.


Lemma corsResponse_Ok (env : Env) (origin : jsstring) (r0 r : response) :
  header_value (allowed_origin env) = Ok origin ->
  corsResponse env r0 = Ok r ->
  cors_headers origin r /\ well_formed r /\ status r = status r0 /\ body r = body r0.
Proof.
  intros Ho H. rewrite (corsResponse_valid env origin r0 Ho) in H.
  apply newResponse_Ok in H as (Hw & Hs & Hb & Hh).
  repeat split; try apply Hw; try assumption; rewrite Hh.
  all: repeat (rewrite header_put_same
               || rewrite header_put_other by reflexivity);
    try reflexivity; discriminate.
Qed.

Lemma corsResponse_well_formed (env : Env) (origin : jsstring) (r0 : response) :
  header_value (allowed_origin env) = Ok origin ->
  well_formed r0 -> exists r, corsResponse env r0 = Ok r.
Proof.
  intros Ho [Hs Hb]. rewrite (corsResponse_valid env origin r0 Ho).
  now apply newResponse_well_formed.
Qed.

End WorkerFacts.

Section WorkerPaths.

Local Open Scope string_scope.

Variable token_endpoint : json -> outcome (Z * outcome json).

Lemma jsonResponse_Ok (data : json) (s : Z) (r : response) :
  jsonResponse data s = Ok r ->
  well_formed r /\ status r = s /\ body r = Some (Json data).
Proof.
  unfold jsonResponse. intro H. apply newResponse_Ok in H. tauto.
Qed.

Ltac outcomes :=
  repeat match goal with
         | H : andThen ?c _ = Ok _ |- _ =>
             destruct c eqn:?; cbn [andThen] in H; [|discriminate]
         | H : (if ?b then _ else _) = Ok _ |- _ => destruct b eqn:?
         | H : (let '(_, _) := ?p in _) = Ok _ |- _ => destruct p
         | H : jsonResponse _ _ = Ok _ |- _ => apply jsonResponse_Ok in H
         end.

Lemma handleExchange_well_formed (req : request) (env : Env) (r : response) :
  handleExchange token_endpoint req env = Ok r -> well_formed r.
Proof. unfold handleExchange. intro H. outcomes; tauto. Qed.

Lemma handleRefresh_well_formed (req : request) (env : Env) (r : response) :
  handleRefresh token_endpoint req env = Ok r -> well_formed r.
Proof. unfold handleRefresh. intro H. outcomes; tauto. Qed.



Lemma answer_cors (env : Env) (origin : jsstring) (r0 : response) :
  header_value (allowed_origin env) = Ok origin ->
  well_formed r0 ->
  exists r, corsResponse env r0 = Ok r
            /\ cors_headers origin r /\ well_formed r
            /\ status r = status r0 /\ body r = body r0.
Proof.
  intros Ho H. destruct (corsResponse_well_formed env origin r0 Ho H) as [r E].
  exists r. split; [exact E|]. now apply (corsResponse_Ok env origin) in E.
Qed.

End WorkerPaths.



Section WorkerAnswers.

Local Open Scope string_scope.

Variable token_endpoint : json -> outcome (Z * outcome json).

Variables (env : Env) (origin : jsstring).
Hypothesis valid_origin : header_value (allowed_origin env) = Ok origin.

Lemma respond (b : option content) (from_text : bool) (s : Z) (hs : header_list) :
  (200 <= s <= 599)%Z -> (b <> None -> null_body_status s = false) ->
  answers (andThen (newResponse b from_text s hs) (corsResponse env)) s b.
Proof.
  intros Hs Hb.
  destruct (newResponse_well_formed b from_text s hs Hs Hb) as [r0 E0].
  rewrite E0. cbn [andThen]. apply newResponse_Ok in E0 as (Hw & <- & <- & _).
  destruct (answer_cors env origin r0 valid_origin Hw) as (r & E & _ & _ & H1 & H2).
  exists r. now repeat split.
Qed.

Lemma respond_json (data : json) (s : Z) :
  (200 <= s <= 599)%Z -> null_body_status s = false ->
  answers (andThen (jsonResponse data s) (corsResponse env)) s (Some (Json data)).
Proof. intros Hs Hn. unfold jsonResponse. apply respond; [exact Hs|now intros _]. Qed.

Lemma fetch_route_answers (req : request) (s : Z) (b : option content) :
  String.eqb (method req) "OPTIONS" = false ->
  answers (route token_endpoint req env) s b ->
  answers (fetch token_endpoint req env) s b.
Proof.
  intros Hm (r & E & H). unfold fetch. rewrite Hm, E. now exists r.
Qed.

Lemma fetch_route_raises (req : request) (message : string) :
  String.eqb (method req) "OPTIONS" = false ->
  route token_endpoint req env = Raise message ->
  answers (fetch token_endpoint req env) 500
          (Some (Json (JObj [("error", JStr message)]))).
Proof.
  intros Hm E. unfold fetch. rewrite Hm, E.
  apply (respond _ true 500); [lia|reflexivity].
Qed.

Lemma post_is_not_options (req : request) :
  method req = "POST" -> String.eqb (method req) "OPTIONS" = false.
Proof. now intros ->. Qed.

End WorkerAnswers.

(** X20: with an [ALLOWED_ORIGIN] that is a header value, a preflight
    (OPTIONS) is answered 204 without body, whatever its path; any other
    request that is not a POST to /exchange or /refresh is answered 404
    "Not found". *)
Theorem fetch_routing (token_endpoint : json -> outcome (Z * outcome json))
  (req : request) (env : Env) (origin : jsstring) :
  header_value (allowed_origin env) = Ok origin ->
  (method req = "OPTIONS"%string ->
   answers (fetch token_endpoint req env) 204 None)
  /\ (method req <> "OPTIONS"%string ->
      ~ (method req = "POST"%string
         /\ (pathname req = "/exchange"%string \/ pathname req = "/refresh"%string)) ->
      answers (fetch token_endpoint req env) 404 (Some (Text "Not found"))).
Proof.
  intro Hv. split.
  - intro H. unfold fetch. rewrite H. simpl String.eqb. cbv iota.
    apply (respond env origin Hv); [lia|]. intro C. contradiction.
  - intros Ho Hr. apply fetch_route_answers; [now apply String.eqb_neq|].
    unfold route.
    destruct (String.eqb (method req) "POST") eqn:Em.
    + apply String.eqb_eq in Em.
      destruct (String.eqb (pathname req) "/exchange") eqn:E1;
        [apply String.eqb_eq in E1; tauto|].
      destruct (String.eqb (pathname req) "/refresh") eqn:E2;
        [apply String.eqb_eq in E2; tauto|].
      cbn [andb]. apply (respond env origin Hv); [lia|reflexivity].
    + cbn [andb]. apply (respond env origin Hv); [lia|reflexivity].
Qed.

(** A preflight and a GET, with no [ALLOWED_ORIGIN] set. *)
Lemma fetch_routing_witness :
  answers (fetch (fun _ => Raise "unreachable")
                 (mkRequest "OPTIONS" "/exchange" (Raise "no body"))
                 (mkEnv None None None))
          204 None
  /\ answers (fetch (fun _ => Raise "unreachable")
                    (mkRequest "GET" "/" (Raise "no body"))
                    (mkEnv None None None))
             404 (Some (Text "Not found")).
Proof.
  split.
  - apply (proj1 (fetch_routing (fun _ => Raise "unreachable")
                    (mkRequest "OPTIONS" "/exchange" (Raise "no body"))
                    (mkEnv None None None) (js "*") eq_refl)).
    reflexivity.
  - apply (proj2 (fetch_routing (fun _ => Raise "unreachable")
                    (mkRequest "GET" "/" (Raise "no body"))
                    (mkEnv None None None) (js "*") eq_refl)).
    + discriminate.
    + intros [H _]. discriminate.
Defined.

(** X21: with an [ALLOWED_ORIGIN] that is a header value, a POST to
    /exchange whose JSON body carries no usable [code] (absent, null,
    false, 0 or empty) is answered 400 "Missing code", and a POST to
    /refresh without usable [refresh_token] 400 "Missing refresh_token",
    whatever the token endpoint would do; a body that is not JSON is
    answered 500 with the message of the error. *)
Theorem fetch_missing_input (token_endpoint : json -> outcome (Z * outcome json))
  (req : request) (env : Env) (origin : jsstring) :
  header_value (allowed_origin env) = Ok origin ->
  method req = "POST"%string ->
  (forall parsed code,
     pathname req = "/exchange"%string -> json_body req = Ok parsed ->
     get parsed "code" = Ok code -> truthy code = false ->
     answers (fetch token_endpoint req env) 400
             (Some (Json (JObj [("error"%string, JStr "Missing code")]))))
  /\ (forall parsed refresh_token,
        pathname req = "/refresh"%string -> json_body req = Ok parsed ->
        get parsed "refresh_token" = Ok refresh_token ->
        truthy refresh_token = false ->
        answers (fetch token_endpoint req env) 400
                (Some (Json (JObj [("error"%string, JStr "Missing refresh_token")]))))
  /\ (forall message,
        pathname req = "/exchange"%string \/ pathname req = "/refresh"%string ->
        json_body req = Raise message ->
        answers (fetch token_endpoint req env) 500
                (Some (Json (JObj [("error"%string, JStr message)])))).
Proof.
  intros Hv Hm. pose proof (post_is_not_options req Hm) as Ho. repeat split.
  - intros parsed code Hp Hb Hc Ht. apply fetch_route_answers; [exact Ho|].
    unfold route, handleExchange. rewrite Hm, Hp, Hb. cbn [String.eqb andb andThen].
    simpl. rewrite Hc. cbn [andThen]. rewrite Ht. cbn [negb].
    apply (respond_json env origin Hv); [lia|reflexivity].
  - intros parsed tok Hp Hb Hc Ht. apply fetch_route_answers; [exact Ho|].
    unfold route, handleRefresh. rewrite Hm, Hp, Hb. simpl. rewrite Hc.
    cbn [andThen]. rewrite Ht. cbn [negb].
    apply (respond_json env origin Hv); [lia|reflexivity].
  - intros message [Hp|Hp] Hb; apply (fetch_route_raises _ env origin Hv);
      try exact Ho;
      unfold route, handleExchange, handleRefresh; rewrite Hm, Hp, Hb; reflexivity.
Qed.

(** A POST to /exchange with the body {}. *)
Lemma fetch_missing_input_witness :
  answers (fetch (fun _ => Raise "unreachable")
                 (mkRequest "POST" "/exchange" (Ok (JObj [])))
                 (mkEnv None None None))
          400 (Some (Json (JObj [("error"%string, JStr "Missing code")]))).
Proof.
  refine (proj1 (fetch_missing_input _ (mkRequest "POST" "/exchange" (Ok (JObj [])))
                   (mkEnv None None None) (js "*") eq_refl eq_refl)
                (JObj []) None eq_refl eq_refl eq_refl eq_refl).
Defined.

(** What the worker sends to the token endpoint. *)
Definition token_request (env : Env) (key : string) (value : option json)
  (grant : string) : json :=
  JObj (literal [ ("client_id"%string, string_prop (STRAVA_CLIENT_ID env));
                  ("client_secret"%string, string_prop (STRAVA_CLIENT_SECRET env));
                  (key, value);
                  ("grant_type"%string, Some (JStr grant)) ]).

(** The three token properties of the endpoint's answer. *)
Definition tokens_of (fields : list (string * json)) : json :=
  JObj (literal [ ("access_token"%string, lookup "access_token" fields);
                  ("refresh_token"%string, lookup "refresh_token" fields);
                  ("expires_at"%string, lookup "expires_at" fields) ]).

(** X22: with an [ALLOWED_ORIGIN] that is a header value, a POST to
    /exchange with a usable code is forwarded with the client id, the
    client secret and grant type authorization_code.  A 2xx answer is
    reduced to its access_token, refresh_token and expires_at, sent with
    status 200; another answer is passed on with its status and its
    message (or "Token exchange failed"); a failure of the call is
    answered 500. *)
Theorem exchange_forwarding (token_endpoint : json -> outcome (Z * outcome json))
  (req : request) (env : Env) (origin : jsstring)
  (parsed : json) (code : option json) :
  header_value (allowed_origin env) = Ok origin ->
  method req = "POST"%string -> pathname req = "/exchange"%string ->
  json_body req = Ok parsed -> get parsed "code" = Ok code -> truthy code = true ->
  (forall s fields,
     token_endpoint (token_request env "code" code "authorization_code")
     = Ok (s, Ok (JObj fields)) ->
     ok s = true ->
     answers (fetch token_endpoint req env) 200 (Some (Json (tokens_of fields))))
  /\ (forall s fields,
        token_endpoint (token_request env "code" code "authorization_code")
        = Ok (s, Ok (JObj fields)) ->
        ok s = false -> (200 <= s <= 599)%Z -> null_body_status s = false ->
        answers (fetch token_endpoint req env) s
          (Some (Json (JObj [("error"%string,
                              message_or (lookup "message" fields)
                                         "Token exchange failed")]))))
  /\ (forall message,
        token_endpoint (token_request env "code" code "authorization_code")
        = Raise message ->
        answers (fetch token_endpoint req env) 500
                (Some (Json (JObj [("error"%string, JStr message)])))).
Proof.
  intros Hv Hm Hp Hb Hc Ht. pose proof (post_is_not_options req Hm) as Ho.
  unfold token_request. repeat split.
  - intros s fields He Hs. apply fetch_route_answers; [exact Ho|].
    unfold route, handleExchange. rewrite Hm, Hp, Hb. simpl String.eqb.
    cbn [andb andThen]. rewrite Hc. cbn [andThen]. rewrite Ht. cbn [negb].
    rewrite He. cbn [andThen]. rewrite Hs. cbn [negb get andThen].
    apply (respond_json env origin Hv); [lia|reflexivity].
  - intros s fields He Hs Hr Hn. apply fetch_route_answers; [exact Ho|].
    unfold route, handleExchange. rewrite Hm, Hp, Hb. simpl String.eqb.
    cbn [andb andThen]. rewrite Hc. cbn [andThen]. rewrite Ht. cbn [negb].
    rewrite He. cbn [andThen]. rewrite Hs. cbn [negb get andThen].
    apply (respond_json env origin Hv); assumption.
  - intros message He. apply (fetch_route_raises _ env origin Hv); [exact Ho|].
    unfold route, handleExchange. rewrite Hm, Hp, Hb. simpl String.eqb.
    cbn [andb andThen]. rewrite Hc. cbn [andThen]. rewrite Ht. cbn [negb].
    now rewrite He.
Qed.

(** An exchange answered 200 with tokens and athlete data: the athlete
    data is not passed on. *)
Lemma exchange_forwarding_witness :
  answers
    (fetch (fun _ => Ok (200%Z, Ok (JObj [ ("access_token", JStr "a");
                                           ("athlete", JObj [("id", JNum 1)]);
                                           ("refresh_token", JStr "r");
                                           ("expires_at", JNum 1700000000) ]%string)))
           (mkRequest "POST" "/exchange" (Ok (JObj [("code", JStr "c")]%string)))
           (mkEnv (Some "id") (Some "secret") None)%string)
    200
    (Some (Json (JObj [ ("access_token", JStr "a");
                        ("refresh_token", JStr "r");
                        ("expires_at", JNum 1700000000) ]%string))).
Proof.
  refine (proj1 (exchange_forwarding _
                   (mkRequest "POST" "/exchange" (Ok (JObj [("code", JStr "c")]%string)))
                   (mkEnv (Some "id") (Some "secret") None)%string (js "*") _ _ eq_refl eq_refl eq_refl eq_refl eq_refl eq_refl)
                200%Z _ eq_refl eq_refl).
Defined.

(** X23: with an [ALLOWED_ORIGIN] that is a header value, a POST to
    /refresh with a usable refresh token is forwarded with the client
    id, the client secret and grant type refresh_token; the answer is
    treated as for /exchange, the fallback message being "Token refresh
    failed". *)
Theorem refresh_forwarding (token_endpoint : json -> outcome (Z * outcome json))
  (req : request) (env : Env) (origin : jsstring)
  (parsed : json) (refresh_token : option json) :
  header_value (allowed_origin env) = Ok origin ->
  method req = "POST"%string -> pathname req = "/refresh"%string ->
  json_body req = Ok parsed -> get parsed "refresh_token" = Ok refresh_token ->
  truthy refresh_token = true ->
  (forall s fields,
     token_endpoint (token_request env "refresh_token" refresh_token "refresh_token")
     = Ok (s, Ok (JObj fields)) ->
     ok s = true ->
     answers (fetch token_endpoint req env) 200 (Some (Json (tokens_of fields))))
  /\ (forall s fields,
        token_endpoint (token_request env "refresh_token" refresh_token "refresh_token")
        = Ok (s, Ok (JObj fields)) ->
        ok s = false -> (200 <= s <= 599)%Z -> null_body_status s = false ->
        answers (fetch token_endpoint req env) s
          (Some (Json (JObj [("error"%string,
                              message_or (lookup "message" fields)
                                         "Token refresh failed")]))))
  /\ (forall message,
        token_endpoint (token_request env "refresh_token" refresh_token "refresh_token")
        = Raise message ->
        answers (fetch token_endpoint req env) 500
                (Some (Json (JObj [("error"%string, JStr message)])))).
Proof.
  intros Hv Hm Hp Hb Hc Ht. pose proof (post_is_not_options req Hm) as Ho.
  unfold token_request. repeat split.
  - intros s fields He Hs. apply fetch_route_answers; [exact Ho|].
    unfold route, handleRefresh. rewrite Hm, Hp, Hb. simpl String.eqb.
    cbn [andb andThen]. rewrite Hc. cbn [andThen]. rewrite Ht. cbn [negb].
    rewrite He. cbn [andThen]. rewrite Hs. cbn [negb get andThen].
    apply (respond_json env origin Hv); [lia|reflexivity].
  - intros s fields He Hs Hr Hn. apply fetch_route_answers; [exact Ho|].
    unfold route, handleRefresh. rewrite Hm, Hp, Hb. simpl String.eqb.
    cbn [andb andThen]. rewrite Hc. cbn [andThen]. rewrite Ht. cbn [negb].
    rewrite He. cbn [andThen]. rewrite Hs. cbn [negb get andThen].
    apply (respond_json env origin Hv); assumption.
  - intros message He. apply (fetch_route_raises _ env origin Hv); [exact Ho|].
    unfold route, handleRefresh. rewrite Hm, Hp, Hb. simpl String.eqb.
    cbn [andb andThen]. rewrite Hc. cbn [andThen]. rewrite Ht. cbn [negb].
    now rewrite He.
Qed.

(** A refresh refused by the endpoint with status 400 and a message. *)
Lemma refresh_forwarding_witness :
  answers
    (fetch (fun _ => Ok (400%Z, Ok (JObj [("message", JStr "Bad Request")]%string)))
           (mkRequest "POST" "/refresh"
                      (Ok (JObj [("refresh_token", JStr "r")]%string)))
           (mkEnv (Some "id") (Some "secret") None)%string)
    400
    (Some (Json (JObj [("error", JStr "Bad Request")]%string))).
Proof.
  refine (proj1 (proj2 (refresh_forwarding _
                   (mkRequest "POST" "/refresh"
                              (Ok (JObj [("refresh_token", JStr "r")]%string)))
                   (mkEnv (Some "id") (Some "secret") None)%string (js "*") _ _ eq_refl eq_refl eq_refl eq_refl eq_refl eq_refl))
                400%Z _ eq_refl eq_refl _ eq_refl).
  lia.
Defined.

(* ================================================================== *)
(** ** Order of the difficulty bands *)
(* ================================================================== *)

(** Position in the table of the band a score falls in: the first level
    whose [min] is at most the score, the last level when there is none. *)
Fixpoint band_from (levels : list level) (score : Q) (position : nat) : nat :=
  match levels with
  | [] => Nat.pred position
  | l :: rest =>
      if Qle_bool (min l) score then position
      else band_from rest score (S position)
  end.

Definition band (score : Q) : nat := band_from DIFFICULTY_CLASSES score 0.

(** X24: the class of a score is the table entry at its band, and a
    higher score never falls in a lower band: the bands are ordered from
    easy up to suspicious. *)
Theorem getDifficultyClass_monotone (score1 score2 : Q) :
  score1 <= score2 ->
  (band score2 <= band score1)%nat
  /\ nth_error (map level_info DIFFICULTY_CLASSES) (band score1)
     = Some (getDifficultyClass score1)
  /\ nth_error (map level_info DIFFICULTY_CLASSES) (band score2)
     = Some (getDifficultyClass score2).
Proof.
  intro H. unfold band, getDifficultyClass, DIFFICULTY_CLASSES.
  cbn [band_from first_level min level_info].
  repeat match goal with
         | |- context [Qle_bool ?a score1] =>
             let E := fresh "E" in
             destruct (Qle_bool a score1) eqn:E;
             [apply Qle_bool_iff in E|apply Qle_bool_false_iff in E]
         end;
    repeat match goal with
           | |- context [Qle_bool ?a score2] =>
               let E := fresh "E" in
               destruct (Qle_bool a score2) eqn:E;
               [apply Qle_bool_iff in E|apply Qle_bool_false_iff in E]
           end;
    try (exfalso; lra);
    (split; [simpl; lia|split; reflexivity]).
Qed.

(** Scores 62 and 95: bands "accessible" and "hard". *)
Lemma getDifficultyClass_monotone_witness :
  (band 95 <= band 62)%nat
  /\ nth_error (map level_info DIFFICULTY_CLASSES) (band 62)
     = Some (getDifficultyClass 62)
  /\ nth_error (map level_info DIFFICULTY_CLASSES) (band 95)
     = Some (getDifficultyClass 95).
Proof.
  apply (getDifficultyClass_monotone 62 95). discriminate.
Defined.
